(** * result.py: rental-listing scraper, label-driven field normalisation

    A shallow embedding of [src/result.py].  Python values are modelled as
    follows.

    - [str] is a sequence of Unicode code points: [list N].  The Japanese
      literals of the source are written as they are and decoded from the
      UTF-8 bytes of the literal by [u].
    - [dict] with string keys is [gmap string val]; [data[k] = v] is
      [<[k:=v]> data] and [data.get(k)] is [get data k].
    - [float] is IEEE 754 binary64, as [spec_float] with the operations of
      [SpecFloat] at precision 53 and exponent bound 1024.
    - an exception is a value of [exn]; code that may raise lives in
      [result].
    - the parsed page (the [BeautifulSoup] object) is a forest of [node]s.
    - [fields.OUTPUT_KEYS], [requests.get] and [datetime.now] are outside
      the file: the declared keys, the page and the formatted time are
      arguments of [parse_property]. *)

From stdpp Require Import gmap strings list fin_maps pretty.
From Stdlib Require Import ZArith NArith Lia Floats.SpecFloat.

Set Warnings "-clear-no-such-hyp".

Local Open Scope string_scope.

(** ** Python strings *)

Module PyStr.

(** Decoder for the literals of this file (well-formed UTF-8 only):
    [need] continuation bytes are still expected, [acc] holds the bits
    read so far. *)
Fixpoint utf8_go (s : string) (need : nat) (acc : N) : list N :=
  match s with
  | EmptyString => []
  | String a r =>
      let b := Ascii.N_of_ascii a in
      match need with
      | O =>
          if (b <? 0x80)%N then b :: utf8_go r 0 0%N
          else if (b <? 0xE0)%N then utf8_go r 1 (b mod 0x20)%N
          else if (b <? 0xF0)%N then utf8_go r 2 (b mod 0x10)%N
          else utf8_go r 3 (b mod 0x08)%N
      | S O => (acc * 64 + b mod 64)%N :: utf8_go r 0 0%N
      | S n => utf8_go r n (acc * 64 + b mod 64)%N
      end
  end.

Definition u (s : string) : list N := utf8_go s 0 0%N.

(** [bool(s)] for a string: non-empty. *)
Definition nonempty (s : list N) : bool :=
  match s with [] => false | _ :: _ => true end.

Definition eqb (a b : list N) : bool := bool_decide (a = b).

(** [str.isspace] of one character ([Py_UNICODE_ISSPACE]). *)
Definition isspace (c : N) : bool :=
  ((0x09 <=? c) && (c <=? 0x0D) || (0x1C <=? c) && (c <=? 0x20)
   || (c =? 0x85) || (c =? 0xA0) || (c =? 0x1680)
   || (0x2000 <=? c) && (c <=? 0x200A)
   || (c =? 0x2028) || (c =? 0x2029) || (c =? 0x202F) || (c =? 0x205F)
   || (c =? 0x3000))%N.

Fixpoint lstrip (s : list N) : list N :=
  match s with
  | [] => []
  | c :: r => if isspace c then lstrip r else s
  end.

(** [s.strip()] *)
Definition strip (s : list N) : list N := rev (lstrip (rev (lstrip s))).

(** [s.startswith(p)] *)
Fixpoint startswith (p s : list N) : bool :=
  match p, s with
  | [], _ => true
  | _ :: _, [] => false
  | a :: p', b :: s' => (a =? b)%N && startswith p' s'
  end.

(** [sub in s] *)
Fixpoint contains (sub s : list N) : bool :=
  startswith sub s ||
  match s with
  | [] => false
  | _ :: r => contains sub r
  end.

(** [s.split(sep)] for a non-empty [sep] (Python raises [ValueError] on an
    empty one; every call of the source passes a literal of one
    character).  [skip] counts the characters of a separator that was
    recognised and is still to be passed over.  The head of the result is
    the part being read. *)
Fixpoint split_go (sep s : list N) (skip : nat) : list (list N) :=
  match s with
  | [] => [[]]
  | c :: r =>
      match skip with
      | S k => split_go sep r k
      | O =>
          if startswith sep s then [] :: split_go sep r (length sep - 1)
          else match split_go sep r 0 with
               | p :: ps => (c :: p) :: ps
               | [] => [[c]]
               end
      end
  end.

Definition split (sep s : list N) : list (list N) := split_go sep s 0.

(** [s.replace(old, "")] for a non-empty [old]: occurrences are removed
    left to right, without overlap. *)
Fixpoint remove_go (old s : list N) (skip : nat) : list N :=
  match s with
  | [] => []
  | c :: r =>
      match skip with
      | S k => remove_go old r k
      | O =>
          if startswith old s then remove_go old r (length old - 1)
          else c :: remove_go old r 0
      end
  end.

Definition remove (old s : list N) : list N :=
  match old with
  | [] => s
  | _ :: _ => remove_go old s 0
  end.

(** Unicode decimal digits (general category Nd): they come in runs of
    ten consecutive code points with the values 0 to 9; the table lists
    the first code point of each run. *)
Definition Nd_runs : list N :=
  [0x30; 0x660; 0x6F0; 0x7C0; 0x966; 0x9E6; 0xA66; 0xAE6; 0xB66; 0xBE6;
   0xC66; 0xCE6; 0xD66; 0xDE6; 0xE50; 0xED0; 0xF20; 0x1040; 0x1090;
   0x17E0; 0x1810; 0x1946; 0x19D0; 0x1A80; 0x1A90; 0x1B50; 0x1BB0;
   0x1C40; 0x1C50; 0xA620; 0xA8D0; 0xA900; 0xA9D0; 0xA9F0; 0xAA50;
   0xABF0; 0xFF10; 0x104A0; 0x10D30; 0x11066; 0x110F0; 0x11136; 0x111D0;
   0x112F0; 0x11450; 0x114D0; 0x11650; 0x116C0; 0x11730; 0x118E0;
   0x11950; 0x11C50; 0x11D50; 0x11DA0; 0x16A60; 0x16AC0; 0x16B50;
   0x1D7CE; 0x1D7D8; 0x1D7E2; 0x1D7EC; 0x1D7F6; 0x1E140; 0x1E2F0;
   0x1E950; 0x1FBF0]%N.

Fixpoint decimal_in (runs : list N) (c : N) : option N :=
  match runs with
  | [] => None
  | s :: rest =>
      if ((s <=? c) && (c <? s + 10))%N then Some (c - s)%N
      else decimal_in rest c
  end.

(** [unicodedata.decimal(c)], [None] when [c] is no decimal digit. *)
Definition decimal (c : N) : option N := decimal_in Nd_runs c.

(** [c.isdecimal()], the class [\d] of [re] on [str] patterns. *)
Definition isdecimal (c : N) : bool :=
  match decimal c with Some _ => true | None => false end.

End PyStr.

Import PyStr.

(** ** Regular expressions of the source *)

Module Re.

(** [re.match(r"^(.*?[CLS])", s)], group 1: the lazy [.*?] takes as few
    characters as possible, none of them a newline ([.] without DOTALL),
    and is followed by one character of the class. *)
Fixpoint match_lazy_upto (cls : N → bool) (s : list N) : option (list N) :=
  match s with
  | [] => None
  | c :: r =>
      if cls c then Some [c]
      else if (c =? 0x0A)%N then None
      else match match_lazy_upto cls r with
           | Some m => Some (c :: m)
           | None => None
           end
  end.

Fixpoint take_while (p : N → bool) (s : list N) : list N :=
  match s with
  | [] => []
  | c :: r => if p c then c :: take_while p r else []
  end.

(** [re.match(r"^([^\d]+)", s)], group 1: the longest leading run of
    characters that are no decimal digit, which must not be empty. *)
Definition match_non_digits (s : list N) : option (list N) :=
  match take_while (λ c, negb (isdecimal c)) s with
  | [] => None
  | m => Some m
  end.

Definition one_of (l : list N) (c : N) : bool := bool_decide (c ∈ l).

End Re.

(** ** Python floats *)

Module PyFloat.

Definition prec : Z := 53.
Definition emax : Z := 1024.

(** [float(n)] for an integer that needs no rounding, and the rounded
    conversion in general. *)
Definition of_Z (n : Z) : spec_float := binary_normalize prec emax n 0 false.

Definition zero : spec_float := S754_zero false.

(** [x * y] *)
Definition mul (x y : spec_float) : spec_float := SFmul prec emax x y.

(** The literals [0.5], [1.0] and [1.1] of the source: the doubles
    nearest to the decimal fractions. *)
Definition lit_0_5 : spec_float := SFdiv prec emax (of_Z 5) (of_Z 10).
Definition lit_1_0 : spec_float := of_Z 1.
Definition lit_1_1 : spec_float := SFdiv prec emax (of_Z 11) (of_Z 10).

(** [bool(x)]: [x != 0.0]; a NaN is true. *)
Definition nonzero (x : spec_float) : bool :=
  match x with S754_zero _ => false | _ => true end.

(** [round(x, 0)]: infinities and NaN round to themselves; a finite
    value is rounded to the nearest integer, a tie to the even one
    (correctly rounded [dtoa] in mode 3 with no digit after the point),
    and the sign of a zero result is the sign of [x]. *)
Definition round0 (x : spec_float) : spec_float :=
  match x with
  | S754_finite s m e =>
      if (0 <=? e)%Z then x
      else
        let d := (2 ^ (- e))%Z in
        let q := (Zpos m / d)%Z in
        let r := (Zpos m mod d)%Z in
        let n := if (2 * r <? d)%Z then q
                 else if (d <? 2 * r)%Z then (q + 1)%Z
                 else if Z.even q then q else (q + 1)%Z in
        binary_normalize prec emax (if s then (- n)%Z else n) 0 s
  | _ => x
  end.

(** *** [float(s)] for a string *)

(** [_PyUnicode_TransformDecimalAndSpaceToASCII]: ASCII is kept, other
    white space becomes a blank, other decimal digits become ASCII
    digits, and anything else becomes [?], which no float literal
    contains. *)
Definition to_ascii (c : N) : N :=
  if (c <? 127)%N then c
  else if isspace c then 0x20%N
  else match decimal c with
       | Some d => (0x30 + d)%N
       | None => 0x3F%N
       end.

Definition is_digit (c : N) : bool := ((0x30 <=? c) && (c <=? 0x39))%N.

(** [_Py_string_to_number_with_underscores]: an underscore is allowed
    only between two digits, and is dropped. *)
Fixpoint drop_underscores (prev : N) (s : list N) : option (list N) :=
  match s with
  | [] => if (prev =? 0x5F)%N then None else Some []
  | c :: r =>
      if (c =? 0x5F)%N then
        if is_digit prev then drop_underscores c r else None
      else if (prev =? 0x5F)%N && negb (is_digit c) then None
      else match drop_underscores c r with
           | Some t => Some (c :: t)
           | None => None
           end
  end.

(** [Py_ISSPACE]: the white space of the C locale. *)
Definition c_isspace (c : N) : bool :=
  ((0x09 <=? c) && (c <=? 0x0D) || (c =? 0x20))%N.

Fixpoint c_lstrip (s : list N) : list N :=
  match s with
  | [] => []
  | c :: r => if c_isspace c then c_lstrip r else s
  end.

Definition c_strip (s : list N) : list N :=
  rev (c_lstrip (rev (c_lstrip s))).

(** The leading digits of [s], as their values, and what follows. *)
Fixpoint digits (s : list N) : list Z * list N :=
  match s with
  | [] => ([], [])
  | c :: r =>
      if is_digit c then
        let '(ds, rest) := digits r in (Z.of_N (c - 0x30) :: ds, rest)
      else ([], s)
  end.

Definition Z_of_digits (ds : list Z) : Z :=
  foldl (λ acc d, acc * 10 + d)%Z 0%Z ds.

Definition sign (s : list N) : bool * list N :=
  match s with
  | 0x2D%N :: r => (true, r)
  | 0x2B%N :: r => (false, r)
  | _ => (false, s)
  end.

(** [[sign] (digits [. [digits]] | . digits) [(e|E) [sign] digits]]: the
    integer [m] and the power of ten [e] with value [m * 10^e]. *)
Definition decimal_literal (s : list N) : option (Z * Z) :=
  let '(ip, r1) := digits s in
  let '(fp, r2) := match r1 with
                   | 0x2E%N :: r => digits r
                   | _ => ([], r1)
                   end in
  match ip, fp with
  | [], [] => None
  | _, _ =>
      let m := Z_of_digits (ip ++ fp) in
      let scale := (- Z.of_nat (length fp))%Z in
      match r2 with
      | [] => Some (m, scale)
      | c :: r3 =>
          if ((c =? 0x65) || (c =? 0x45))%N then
            let '(neg, r4) := sign r3 in
            match digits r4 with
            | (d :: ds, []) =>
                let x := Z_of_digits (d :: ds) in
                Some (m, ((if neg then - x else x) + scale)%Z)
            | _ => None
            end
          else None
      end
  end.

(** The double nearest to [m * 10^e] (ties to even), overflow giving an
    infinity; [neg] is the sign. *)
Definition of_decimal (neg : bool) (m e : Z) : spec_float :=
  match m with
  | Zpos p =>
      if (0 <=? e)%Z then
        binary_normalize prec emax
          (if neg then (- (m * 10 ^ e))%Z else (m * 10 ^ e)%Z) 0 neg
      else
        SFdiv prec emax (S754_finite neg p 0)
              (S754_finite false (Z.to_pos (10 ^ (- e))) 0)
  | _ => S754_zero neg
  end.

Definition lower (c : N) : N :=
  if ((0x41 <=? c) && (c <=? 0x5A))%N then (c + 0x20)%N else c.

(** [_Py_parse_inf_or_nan], after the sign. *)
Definition inf_or_nan (neg : bool) (s : list N) : option spec_float :=
  let l := map lower s in
  if eqb l (u "inf") || eqb l (u "infinity") then Some (S754_infinity neg)
  else if eqb l (u "nan") then Some S754_nan
  else None.

(** [float(s)]; [None] stands for [ValueError]. *)
Definition of_str (s : list N) : option spec_float :=
  match drop_underscores 0%N (map to_ascii s) with
  | None => None
  | Some t =>
      let '(neg, body) := sign (c_strip t) in
      match decimal_literal body with
      | Some (m, e) => Some (of_decimal neg m e)
      | None => inf_or_nan neg body
      end
  end.

End PyFloat.

(** ** Values, truth and exceptions *)

Inductive val :=
| VNone
| VStr (s : list N)
| VNum (x : spec_float).

#[global] Instance spec_float_eq_dec : EqDecision spec_float.
Proof. solve_decision. Defined.

#[global] Instance val_eq_dec : EqDecision val.
Proof. solve_decision. Defined.

(** [bool(v)] *)
Definition truthy (v : val) : bool :=
  match v with
  | VNone => false
  | VStr s => nonempty s
  | VNum x => PyFloat.nonzero x
  end.

(** [v == s] for a string literal [s] *)
Definition is_str (v : val) (s : list N) : bool :=
  match v with
  | VStr t => eqb t s
  | _ => false
  end.

(** A string or [None], as a value. *)
Definition of_opt (o : option (list N)) : val :=
  match o with
  | Some s => VStr s
  | None => VNone
  end.

(** [bool(o)] for a string or [None]. *)
Definition truthy_opt (o : option (list N)) : bool := truthy (of_opt o).

(** [a or b] *)
Definition or_else (a b : option (list N)) : option (list N) :=
  if truthy_opt a then a else b.

(** [data.get(k)] *)
Definition get (data : gmap string val) (k : string) : val :=
  default VNone (data !! k).

Inductive exn := ValueError | AttributeError | IndexError.

Inductive result (A : Type) :=
| Ok (a : A)
| Raise (e : exn).
Arguments Ok {A} a.
Arguments Raise {A} e.

#[global] Instance result_ret : MRet result := λ A a, Ok a.
#[global] Instance result_bind : MBind result := λ A B f m,
  match m with
  | Ok a => f a
  | Raise e => Raise e
  end.

(** [try: body except ValueError: handler] *)
Definition try_except_ValueError {A} (body : result A) (handler : result A)
  : result A :=
  match body with
  | Raise ValueError => handler
  | r => r
  end.

Definition as_str (v : val) : result (list N) :=
  match v with
  | VStr s => Ok s
  | _ => Raise AttributeError
  end.

(** [l[0]] *)
Definition index0 {A} (l : list A) : result A :=
  match l with
  | x :: _ => Ok x
  | [] => Raise IndexError
  end.

(** [float(s)] *)
Definition float_of_str (s : list N) : result spec_float :=
  match PyFloat.of_str s with
  | Some x => Ok x
  | None => Raise ValueError
  end.

(** ** The parsed page *)

Module Soup.

(** A text node carries a string that [get_text] reports; a tag has a
    name, attributes and children. *)
#[warnings="-register-all"] Inductive node :=
| Text (s : list N)
| Tag (name : string) (attrs : gmap string (list N)) (children : list node).

Definition name_is (nm : string) (n : node) : bool :=
  match n with
  | Tag name _ _ => bool_decide (name = nm)
  | Text _ => false
  end.

(** [tag.get(attr)] *)
Definition attr (n : node) (a : string) : option (list N) :=
  match n with
  | Tag _ attrs _ => attrs !! a
  | Text _ => None
  end.

(** The strings below a node, in document order. *)
Fixpoint strings (n : node) : list (list N) :=
  match n with
  | Text s => [s]
  | Tag _ _ children =>
      (fix go (l : list node) : list (list N) :=
         match l with
         | [] => []
         | c :: r => (strings c ++ go r)%list
         end) children
  end.

(** [tag.get_text(strip=True)]: every string is stripped, the empty ones
    are left out, and the rest is joined. *)
Definition get_text (n : node) : list N :=
  concat (filter (λ s, nonempty s = true) (map strip (strings n))).

(** [find(pred)] below one node that has the siblings [after] behind it:
    the first tag in document order that satisfies [pred], with the
    siblings that follow it. *)
Fixpoint find_node (pred : node → bool) (n : node) (after : list node)
  : option (node * list node) :=
  match n with
  | Text _ => None
  | Tag _ _ children =>
      if pred n then Some (n, after)
      else
        (fix go (l : list node) : option (node * list node) :=
           match l with
           | [] => None
           | c :: r =>
               match find_node pred c r with
               | Some x => Some x
               | None => go r
               end
           end) children
  end.

(** [soup.find(pred)] *)
Fixpoint find (pred : node → bool) (soup : list node)
  : option (node * list node) :=
  match soup with
  | [] => None
  | c :: r =>
      match find_node pred c r with
      | Some x => Some x
      | None => find pred r
      end
  end.

(** [tag.find_next_sibling(nm)], from the siblings that follow [tag]. *)
Fixpoint find_next_sibling (nm : string) (after : list node) : option node :=
  match after with
  | [] => None
  | c :: r => if name_is nm c then Some c else find_next_sibling nm r
  end.

Fixpoint select_node (nm : string) (n : node) : list node :=
  match n with
  | Text _ => []
  | Tag _ _ children =>
      ((if name_is nm n then [n] else []) ++
       (fix go (l : list node) : list node :=
          match l with
          | [] => []
          | c :: r => select_node nm c ++ go r
          end) children)%list
  end.

(** [soup.select(nm)] for a tag name: all such tags in document order. *)
Definition select (nm : string) (soup : list node) : list node :=
  concat (map (select_node nm) soup).

End Soup.

Import Soup.

(** ** The mapping tables *)

Definition UI_MAPPING : list (list N * string) :=
  [(u "物件名", "building_name_ja");
   (u "種別", "building_type");
   (u "建物構造", "structure");
   (u "所在地", "address");
   (u "築年月", "year");
   (u "部屋番号", "unit_no");
   (u "所在階/階建", "floor_no/floors");
   (u "間取り（タイプ）", "room_type");
   (u "専有面積", "size");
   (u "方位", "facing");
   (u "賃料", "monthly_rent");
   (u "管理費・共益費", "monthly_maintenance");
   (u "敷金/保証金", "deposit/security_deposit");
   (u "礼金/償却・敷引", "key_money/amortization");
   (u "更新料", "months_renewal");
   (u "保険料", "fire_insurance");
   (u "フリーレント", "discount");
   (u "入居可能日", "available_from");
   (u "退去時費用", "other_initial_fees");
   (u "ペット可区分", "pets");
   (u "備考", "property_notes");
   (u "設備・条件", "features")].

Definition FEATURES_MAPPING : list (list N * string) :=
  [(u "壁掛けｴｱｺﾝ1台", "aircon");
   (u "エアコン暖房付き", "aircon_heater");
   (u "オール電化", "all_electric");
   (u "自動お湯張り", "auto_fill_bath");
   (u "バルコニー", "balcony");
   (u "浴室", "bath");
   (u "浴室乾燥機能", "bath_water_heater");
   (u "ブラインド", "blinds");
   (u "BS対応可", "bs");
   (u "ケーブルテレビ", "cable");
   (u "カーペット", "carpet");
   (u "清掃サービス", "cleaning_service");
   (u "カウンターキッチン", "counter_kitchen");
   (u "食器洗浄機", "dishwasher");
   (u "カーテン", "drapes");
   (u "女性専用", "female_only");
   (u "暖炉", "fireplace");
   (u "フローリング", "flooring");
   (u "フルキッチン", "full_kitchen");
   (u "家具付き", "furnished");
   (u "ガス", "gas");
   (u "IHクッキングヒーター", "induction_cooker");
   (u "インターネット無料", "internet_broadband");
   (u "Wi-Fi", "internet_wifi");
   (u "温水洗浄便座", "japanese_toilet");
   (u "リネン", "linen");
   (u "ロフト", "loft");
   (u "電子レンジ", "microwave");
   (u "オーブン", "oven");
   (u "電話回線", "phoneline");
   (u "コンロ", "range");
   (u "冷蔵庫", "refrigerator");
   (u "冷蔵庫/冷凍庫", "refrigerator_freezer");
   (u "屋上バルコニー", "roof_balcony");
   (u "トイレ別", "separate_toilet");
   (u "シャワー", "shower");
   (u "SOHO可", "soho");
   (u "収納", "storage");
   (u "学生向け", "student_friendly");
   (u "システムキッチン", "system_kitchen");
   (u "畳", "tatami");
   (u "床暖房", "underfloor_heating");
   (u "ユニットバス", "unit_bath");
   (u "調理器具付き", "utensils_cutlery");
   (u "ベランダ", "veranda");
   (u "洗濯機/乾燥機", "washer_dryer");
   (u "洗濯機置場", "washing_machine");
   (u "ウォシュレット", "washlet");
   (u "洋式トイレ", "western_toilet")].

Definition JP_TO_EN_FACING : list (list N * string) :=
  [(u "北", "facing_north");
   (u "北東", "facing_northeast");
   (u "東", "facing_east");
   (u "南東", "facing_southeast");
   (u "南", "facing_south");
   (u "南西", "facing_southwest");
   (u "西", "facing_west");
   (u "北西", "facing_northwest")].

Definition DEFAULT_FEATURES : list string :=
  ["aircon"; "aircon_heater"; "bs"; "internet_broadband"; "phoneline"; "flooring"; "system_kitchen"; "bath"; "shower"; "unit_bath"; "western_toilet"; "credit_card"].

(** [d.get(k)] on a table *)
Fixpoint table_get (d : list (list N * string)) (k : list N) : option string :=
  match d with
  | [] => None
  | (k', v) :: r => if eqb k' k then Some v else table_get r k
  end.

(** ** The program *)

Section Program.

(** [fields.OUTPUT_KEYS], the declared output schema.  The module [fields]
    is not part of this development; the list is a parameter of the program. *)
Variable OUTPUT_KEYS : list string.

(** The tag found by [soup.find], if any, has a next sibling [nm]: the text
    of that sibling. *)
Definition sibling_text (found : option (node * list node)) (nm : string)
  : option (list N) :=
  match found with
  | Some (_, after) => get_text <$> find_next_sibling nm after
  | None => None
  end.

Definition get_value_by_label (soup : list node) (label : list N)
  : option (list N) :=
  let dt := find (λ tag, name_is "dt" tag && contains label (get_text tag)) soup in
  match sibling_text dt "dd" with
  | Some v => Some v
  | None =>
      let th := find (λ tag, name_is "th" tag && contains label (get_text tag)) soup in
      sibling_text th "td"
  end.

(** [s[len(m):] if m else s] *)
Definition slice_after (m : option (list N)) (s : list N) : list N :=
  match m with
  | Some p => if nonempty p then drop (length p) s else s
  | None => s
  end.

Definition parse_japanese_address (address : list N)
  : option (list N) * option (list N) * option (list N) * list N :=
  let prefecture := Re.match_lazy_upto (Re.one_of (u "都道府県")) address in
  let remaining := slice_after prefecture address in
  let city := Re.match_lazy_upto (Re.one_of (u "市区町村")) remaining in
  let remaining := slice_after city remaining in
  let district := Re.match_non_digits remaining in
  let chome_banchi := slice_after district remaining in
  (prefecture, city, district, chome_banchi).

Definition image_category (i : nat) : string := "image_category_" +:+ pretty i.
Definition image_url (i : nat) : string := "image_url_" +:+ pretty i.

(** [img.get("src") or img.get("data-src") or img.get("data-lazy")] *)
Definition image_source (img : node) : option (list N) :=
  or_else (or_else (attr img "src") (attr img "data-src")) (attr img "data-lazy").

(** The URL, with the site in front when it starts with a slash. *)
Definition absolute_url (url : list N) : list N :=
  if startswith (u "/") url
  then u "https://rent.tokyu-housing-lease.co.jp" ++ url
  else url.

(** [img.get("alt") or "None"] *)
Definition image_alt (img : node) : list N :=
  match attr img "alt" with
  | Some ((_ :: _) as alt) => alt
  | _ => u "None"
  end.

(** The first loop of [parse_images]: [count] images are stored so far. *)
Fixpoint collect_images (images : list node) (max_images count : nat)
    (data : gmap string val) : nat * gmap string val :=
  match images with
  | [] => (count, data)
  | img :: rest =>
      if bool_decide (max_images ≤ count)%nat then (count, data)
      else
        match image_source img with
        | Some ((_ :: _) as url) =>
            let url := absolute_url url in
            let category := image_alt img in
            let count := S count in
            collect_images rest max_images count
              (<[image_url count := VStr url]>
                 (<[image_category count := VStr category]> data))
        | _ => collect_images rest max_images count data
        end
  end.

(** The second loop: the slots [count + 1 .. max_images] are set to [None]. *)
Definition fill_images (max_images count : nat) (data : gmap string val)
  : gmap string val :=
  foldl (λ d i, <[image_url i := VNone]> (<[image_category i := VNone]> d))
        data (seq (count + 1) (max_images + 1 - (count + 1))).

Definition parse_images (soup : list node) (data : gmap string val)
    (max_images : nat) : gmap string val :=
  let images := select "img" soup in
  let '(count, data) := collect_images images max_images 0 data in
  fill_images max_images count data.

(** ["0" if p.strip() == "-" else p.strip()] *)
Definition dash_zero (p : list N) : list N :=
  if eqb (strip p) (u "-") then u "0" else strip p.

(** The two branches for ["deposit/security_deposit"] and
    ["key_money/amortization"], which differ in the keys only. *)
Definition split_pair (months_key numeric_key : string) (value : list N)
    (data : gmap string val) : gmap string val :=
  match split (u "/") value with
  | [p0; p1] =>
      <[numeric_key := VStr (dash_zero p1)]>
        (<[months_key := VStr (dash_zero p0)]> data)
  | _ => data
  end.

(** One turn of the loop over [UI_MAPPING.items()].  [split] never gives an
    empty list ([split_go_cons] below), so [hd []] is the element [[0]]. *)
Definition ui_step (soup : list node) (data : gmap string val)
    (entry : list N * string) : gmap string val :=
  let '(jp_label, output_key) := entry in
  match get_value_by_label soup jp_label with
  | None | Some [] => data
  | Some value =>
      if decide (output_key = "address") then
        let '(prefecture, city, district, chome_banchi) :=
          parse_japanese_address value in
        <["chome_banchi" := VStr chome_banchi]>
          (<["district" := of_opt district]>
             (<["city" := of_opt city]>
                (<["prefecture" := of_opt prefecture]> data)))
      else if decide (output_key = "facing") then
        let data := foldl (λ d k, <[k := VStr (u "N")]> d) data JP_TO_EN_FACING.*2 in
        match table_get JP_TO_EN_FACING (strip value) with
        | Some key_name =>
            if decide (key_name = "") then data
            else <[key_name := VStr (u "Y")]> data
        | None => data
        end
      else if decide (output_key = "features") then
        let features_list := map strip (split (u "、") value) in
        let data :=
          foldl (λ d feature,
                   <[feature.2 := VStr (if bool_decide (feature.1 ∈ features_list)
                                        then u "Y" else u "N")]> d)
                data FEATURES_MAPPING in
        foldl (λ d key, <[key := VStr (u "Y")]> d) data DEFAULT_FEATURES
      else if decide (output_key = "floor_no/floors") then
        let parts := split (u "/") value in
        <["floors" := of_opt (strip <$> parts !! 1%nat)]>
          (<["floor_no" := of_opt (strip <$> parts !! 0%nat)]> data)
      else if decide (output_key = "deposit/security_deposit") then
        split_pair "months_security_deposit" "numeric_security_deposit" value data
      else if decide (output_key = "key_money/amortization") then
        split_pair "months_key" "numeric_key" value data
      else if decide (output_key = "monthly_rent") then
        let value := if contains (u "〜") value
                     then strip (hd [] (split (u "〜") value))
                     else value in
        <["monthly_rent" := VStr value]> data
      else
        <[output_key := VStr value]> data
  end.

(** [rent_str], from the part of the rent text before a range separator:
    [p.replace("万円", "").replace(",", "").strip()] *)
Definition rent_str (p : list N) : list N :=
  strip (remove (u ",") (remove (u "万円") p)).

(** The rent in yen, [rent] of the source. *)
Definition parse_rent (monthly_rent : val) : result spec_float :=
  if truthy monthly_rent && negb (is_str monthly_rent (u "-")) then
    try_except_ValueError
      (s ← as_str monthly_rent;
       p ← index0 (split (u "〜") s);
       x ← float_of_str (rent_str p);
       mret (PyFloat.mul x (PyFloat.of_Z 10000)))
      (Ok PyFloat.zero)
  else Ok PyFloat.zero.

(** [if not data.get(k): data[k] = round(rent * factor, 0)] *)
Definition derive_fee (rent factor : spec_float) (k : string)
    (data : gmap string val) : gmap string val :=
  if truthy (get data k) then data
  else <[k := VNum (PyFloat.round0 (PyFloat.mul rent factor))]> data.

(** The three assignments that follow the computation of [rent]. *)
Definition apply_fees (rent : spec_float) (data : gmap string val)
  : gmap string val :=
  derive_fee rent PyFloat.lit_1_1 "months_agency"
    (derive_fee rent PyFloat.lit_1_0 "numeric_guarantor"
       (derive_fee rent PyFloat.lit_0_5 "months_guarantor" data)).

Definition derive_fees (data : gmap string val)
  : result (gmap string val) :=
  rent ← parse_rent (get data "monthly_rent");
  mret (apply_fees rent data).

(** [{key: None for key in OUTPUT_KEYS}] *)
Definition empty_record : gmap string val :=
  foldl (λ d key, <[key := VNone]> d) ∅ OUTPUT_KEYS.

(** The record before the loop: every declared key with [None], then the
    link and the date. *)
Definition start_record (url now : list N) : gmap string val :=
  let data := empty_record in
  let data := <["link" := VStr url]> data in
  <["create_date" := VStr now]> data.

(** [for jp_label, output_key in UI_MAPPING.items(): ...] *)
Definition ui_loop (soup : list node) (data : gmap string val)
  : gmap string val :=
  foldl (ui_step soup) data UI_MAPPING.

(** [parse_property(url)], where [soup] is the page that the request
    returned and [now] is the formatted time of the call. *)
Definition parse_property (url now : list N) (soup : list node)
  : result (gmap string val) :=
  let data := start_record url now in
  let data := ui_loop soup data in
  data ← derive_fees data;
  mret (parse_images soup data 16).

End Program.

(** ** Definitions for the statements and their examples *)

(** The keys that the turn for [output_key] may assign. *)
Definition writes (output_key : string) : list string :=
  if decide (output_key = "address") then
    ["prefecture"; "city"; "district"; "chome_banchi"]
  else if decide (output_key = "facing") then JP_TO_EN_FACING.*2
  else if decide (output_key = "features") then
    FEATURES_MAPPING.*2 ++ DEFAULT_FEATURES
  else if decide (output_key = "floor_no/floors") then ["floor_no"; "floors"]
  else if decide (output_key = "deposit/security_deposit") then
    ["months_security_deposit"; "numeric_security_deposit"]
  else if decide (output_key = "key_money/amortization") then
    ["months_key"; "numeric_key"]
  else [output_key].

(** The record when the loop ends. *)
Abbreviation loop_result K url now soup := (ui_loop soup (start_record K url now)).

(** No number is stored by the loop: a value is [None] or a string. *)
Definition not_num (x : val) : Prop :=
  match x with VNum _ => False | _ => True end.

(** An image takes a slot when one of its three attributes gives a URL. *)
Definition valid_image (img : node) : bool :=
  match image_source img with
  | Some (_ :: _) => true
  | _ => false
  end.

(** The URL stored for a valid image. *)
Definition slot_url (img : node) : list N :=
  absolute_url (default [] (image_source img)).

(** The images [vs] are stored in the slots that follow [count]. *)
Fixpoint store_images (vs : list node) (count : nat) (data : gmap string val)
  : gmap string val :=
  match vs with
  | [] => data
  | img :: rest =>
      store_images rest (S count)
        (<[image_url (S count) := VStr (slot_url img)]>
           (<[image_category (S count) := VStr (image_alt img)]> data))
  end.

(** The keys of the slots [1 .. n]. *)
Definition image_keys (n : nat) : gset string :=
  list_to_set (image_category <$> seq 1 n) ∪ list_to_set (image_url <$> seq 1 n).

(** The rent that [parse_rent] computes from a stored rent text. *)
Definition rent_of_text (s : list N) : spec_float :=
  if nonempty s && negb (eqb s (u "-")) then
    match PyFloat.of_str (rent_str (hd [] (split (u "〜") s))) with
    | Some x => PyFloat.mul x (PyFloat.of_Z 10000)
    | None => PyFloat.zero
    end
  else PyFloat.zero.

(** The rent of a value that is a string or [None]. *)
Definition rent_of (v : val) : spec_float :=
  match v with
  | VStr s => rent_of_text s
  | _ => PyFloat.zero
  end.

(** The record that [parse_property] returns. *)
Definition the_record (K : list string) (url now : list N) (soup : list node)
  : gmap string val :=
  let data := loop_result K url now soup in
  parse_images soup (apply_fees (rent_of (get data "monthly_rent")) data) 16.

Definition fee_keys : list string :=
  ["months_guarantor"; "numeric_guarantor"; "months_agency"].

(** The turn at position [n] is the only statement of [parse_property] that
    may assign the key [k]. *)
Definition only_turn (n : nat) (k : string) : Prop :=
  Forall (λ e, k ∉ writes e.2) (take n UI_MAPPING ++ drop (S n) UI_MAPPING)
  ∧ (k ∉ fee_keys) ∧ (String.prefix "image_" k = false)
  ∧ (k ≠ "link") ∧ (k ≠ "create_date").

#[global] Instance only_turn_dec n k : Decision (only_turn n k).
Proof. unfold only_turn. apply _. Defined.

Definition facing_keys : list string := JP_TO_EN_FACING.*2.

(** The two fields that are split in two at a slash, a dash giving ["0"]:
    label, key of the first part, key of the second part. *)
Definition pair_fields : list (list N * string * string) :=
  [(u "敷金/保証金", "months_security_deposit", "numeric_security_deposit");
   (u "礼金/償却・敷引", "months_key", "numeric_key")].

(** [<tr><th>label</th><td>text</td></tr>] *)
Definition row (label text : string) : node :=
  Tag "tr" ∅ [Tag "th" ∅ [Text (u label)]; Tag "td" ∅ [Text (u text)]].

(** [<img ...>] with the given attributes. *)
Definition img_tag (attrs : list (string * string)) : node :=
  Tag "img" (list_to_map (prod_map id u <$> attrs)) [].

(** A page with one table of rows, followed by images. *)
Definition page (rows imgs : list node) : list node :=
  [Tag "html" ∅ [Tag "body" ∅ (Tag "table" ∅ rows :: imgs)]].

(** Every key that the loop or the fee computation may assign: the
    smallest schema that mentions all of them. *)
Definition assigned_keys : list string :=
  (UI_MAPPING.*2 ≫= writes) ++ fee_keys.

Definition example_url : list N := u "https://rent.tokyu-housing-lease.co.jp/rent/1".
Definition example_now : list N := u "2024-05-01 09:30:00".

Definition page_facing_unknown : list node :=
  page [row "方位" "南向き"] [].

Definition page_features : list node :=
  page [row "設備・条件" "バルコニー、収納"] [].

Definition page_deposit : list node :=
  page [row "敷金/保証金" "2/300,000"; row "礼金/償却・敷引" "-/-"] [].

Definition page_deposit_spaced : list node :=
  page [row "敷金/保証金" "1ヶ月 / -"] [].

Definition page_rent_range : list node :=
  page [row "賃料" "8.5〜9.2万円"] [].

Definition data_rent_10 : gmap string val :=
  {["monthly_rent" := VStr (u "10万円")]}.

Definition page_three_images : list node :=
  page [] [img_tag [("src", "/img/a.jpg"); ("alt", "外観")];
           img_tag [("alt", "no source")];
           img_tag [("data-src", "https://cdn.example/b.jpg")];
           img_tag [("src", ""); ("data-lazy", "c.jpg"); ("alt", "")]].

(** The text handed to [float]: the part before a range separator, without
    the suffix ["万円"], without commas, stripped. *)
Definition rent_number_text (s : list N) : list N :=
  rent_str (hd [] (split (u "〜") s)).

Definition page_rent_text : list node :=
  page [row "賃料" "応相談"] [].

(** ** Definitions for the further properties *)

(** [n] occurs in the forest [l], at any depth, with the siblings [after]
    behind it. *)
Inductive occurs (n : node) (after : list node) : list node → Prop :=
| occurs_here before :
    occurs n after (before ++ n :: after)%list
| occurs_below nm attrs children before behind :
    occurs n after children →
    occurs n after (before ++ Tag nm attrs children :: behind)%list.

(** No white space at the start. *)
Definition starts_clean (s : list N) : bool :=
  match s with
  | [] => true
  | c :: _ => negb (isspace c)
  end.

(** The characters that end a prefecture and a city in the two patterns. *)
Definition prefecture_ends : list N := u "都道府県".
Definition city_ends : list N := u "市区町村".

(** [m] is cut at the first character of [ends]: it ends with one, and no
    character before it is one, or a newline. *)
Definition cut_at_first (ends m : list N) : Prop :=
  ∃ body c, m = (body ++ [c])%list ∧ c ∈ ends ∧
            Forall (λ x, (x ∉ ends) ∧ (x ≠ 0x0A%N)) body.

(** The text of a string value; empty for [None]. *)
Definition text_of (x : val) : list N :=
  match x with
  | VStr s => s
  | _ => []
  end.

(** The output keys with a branch of their own in the loop; the other
    keys of [UI_MAPPING] take the default branch. *)
Definition special_keys : list string :=
  ["address"; "facing"; "features"; "floor_no/floors";
   "deposit/security_deposit"; "key_money/amortization"; "monthly_rent"].

(** The four keys of the two fields that are split at a slash. *)
Definition pair_keys : list string :=
  ["months_security_deposit"; "numeric_security_deposit";
   "months_key"; "numeric_key"].

(** A number may stand under a fee key only. *)
Definition number_only_fee (k : string) (x : val) : Prop :=
  k ∈ fee_keys ∨ not_num x.

(** The rent text [a.b万円], for a whole part [a] and one decimal [b]. *)
Definition rent_text (a b : nat) : list N :=
  u (pretty a +:+ "." +:+ pretty b +:+ "万円").

(** The rent and the three fees computed from [rent_text a b] are the whole
    numbers of yen. *)
Definition fees_exact (a b : nat) : bool :=
  let n := Z.of_nat (10 * a + b)%nat in
  match parse_rent (VStr (rent_text a b)) with
  | Ok rent =>
      bool_decide (rent = PyFloat.of_Z (1000 * n)) &&
      bool_decide (PyFloat.round0 (PyFloat.mul rent PyFloat.lit_0_5)
                   = PyFloat.of_Z (500 * n)) &&
      bool_decide (PyFloat.round0 (PyFloat.mul rent PyFloat.lit_1_0)
                   = PyFloat.of_Z (1000 * n)) &&
      bool_decide (PyFloat.round0 (PyFloat.mul rent PyFloat.lit_1_1)
                   = PyFloat.of_Z (1100 * n))
  | Raise _ => false
  end.

(** A page with two fields of the default branch. *)
Definition page_plain : list node :=
  page [row "物件名" "サンプルレジデンス"; row "更新料" "-"] [].

(** A page with an address. *)
Definition page_address : list node :=
  page [row "所在地" "東京都渋谷区神南1-2-3"] [].

(** A page with a floor text, blanks around the slash. *)
Definition page_floor : list node :=
  page [row "所在階/階建" "3階 / 10階建"] [].

(** A page that faces south-west. *)
Definition page_facing_south_west : list node :=
  page [row "方位" "南西"] [].

(** A record with a rent, whose agency fee is given already. *)
Definition data_agency_set : gmap string val :=
  <["months_agency" := VStr (u "1ヶ月")]> data_rent_10.



(** ** Checks of the model on concrete values *)

Local Open Scope list_scope.
Local Open Scope nat_scope.

Example u_literal : u "都A〜" = [0x90FD; 0x41; 0x301C]%N.
Proof. reflexivity. Qed.

Example split_slash : split (u "/") (u "2/300,000") = [u "2"; u "300,000"].
Proof. reflexivity. Qed.

Example split_no_separator : split (u "/") (u "3階") = [u "3階"].
Proof. reflexivity. Qed.

Example remove_suffix : remove (u "万円") (u "8.5万円") = u "8.5".
Proof. reflexivity. Qed.

Example strip_ideographic_space : strip (u "　南 西 ") = u "南 西".
Proof. reflexivity. Qed.

Example float_8_5 : PyFloat.of_str (u "8.5") = Some (S754_finite false 4785074604081152 (-49)).
Proof. vm_compute. reflexivity. Qed.

Example float_fullwidth : PyFloat.of_str (u "１２.５") = PyFloat.of_str (u "12.5").
Proof. vm_compute. reflexivity. Qed.

Example float_rejects_text : PyFloat.of_str (u "応相談") = None.
Proof. vm_compute. reflexivity. Qed.

Example round0_ties_to_even :
  PyFloat.round0 <$> [S754_finite false 5 (-1); S754_finite false 7 (-1)]
  = [PyFloat.of_Z 2; PyFloat.of_Z 4].
Proof. vm_compute. reflexivity. Qed.

Example address_example :
  parse_japanese_address (u "東京都渋谷区神南１丁目2-3")
  = (Some (u "東京都"), Some (u "渋谷区"), Some (u "神南"), u "１丁目2-3").
Proof. vm_compute. reflexivity. Qed.

Example address_without_prefecture :
  parse_japanese_address (u "横浜市西区みなとみらい3")
  = (None, Some (u "横浜市"), Some (u "西区みなとみらい"), u "3").
Proof. vm_compute. reflexivity. Qed.

(** ** Strings: prefixes and splitting *)

Section StringFacts.

Implicit Types s p m : list N.

Lemma match_lazy_upto_prefix cls s m :
  Re.match_lazy_upto cls s = Some m → ∃ rest, s = m ++ rest.
Proof.
  revert m. induction s as [|c s IH]; intros m; simpl; [done|].
  destruct (cls c); [intros [= <-]; by exists s|].
  destruct (c =? 10)%N; [done|].
  destruct (Re.match_lazy_upto cls s) as [m'|]; [|done].
  intros [= <-]. destruct (IH m' eq_refl) as [rest ->]. by exists rest.
Qed.

Lemma take_while_prefix (f : N → bool) s :
  ∃ rest, s = Re.take_while f s ++ rest.
Proof.
  induction s as [|c s [rest IH]]; simpl; [by exists []|].
  destruct (f c); [|by exists (c :: s)].
  exists rest. simpl. by rewrite <- IH.
Qed.

Lemma match_non_digits_prefix s m :
  Re.match_non_digits s = Some m → ∃ rest, s = m ++ rest.
Proof.
  unfold Re.match_non_digits.
  destruct (take_while_prefix (λ c, negb (isdecimal c)) s) as [rest Hs].
  destruct (Re.take_while _ s) as [|c t] eqn:Ht; [done|].
  intros [= <-]. by exists rest.
Qed.

(** What [slice_after] cuts off is what the match took. *)
Lemma slice_after_join (o : option (list N)) s :
  (∀ m, o = Some m → ∃ rest, s = m ++ rest) →
  default [] o ++ slice_after o s = s.
Proof.
  intros H. destruct o as [m|]; simpl; [|done].
  destruct (H m eq_refl) as [rest ->].
  destruct m as [|c m]; simpl; [done|].
  by rewrite drop_app_length.
Qed.

Lemma split_go_cons sep s k : split_go sep s k ≠ [].
Proof.
  revert k. induction s as [|c s IH]; intros k; simpl; [done|].
  destruct k; [|apply IH].
  destruct (startswith sep (c :: s)); [done|].
  by destruct (split_go sep s 0).
Qed.

End StringFacts.

(** ** The address parser *)

(** C1: the four outputs of [parse_japanese_address], joined in order with
    [None] read as the empty string, give back the address. *)
Theorem address_round_trip (address : list N) :
  let '(prefecture, city, district, chome_banchi) :=
    parse_japanese_address address in
  default [] prefecture ++ default [] city ++ default [] district ++ chome_banchi
  = address.
Proof.
  unfold parse_japanese_address.
  set (prefecture := Re.match_lazy_upto _ address).
  set (r1 := slice_after prefecture address).
  set (city := Re.match_lazy_upto _ r1).
  set (r2 := slice_after city r1).
  set (district := Re.match_non_digits r2).
  rewrite (slice_after_join district r2) by apply match_non_digits_prefix.
  unfold r2. rewrite (slice_after_join city r1) by apply match_lazy_upto_prefix.
  unfold r1. apply slice_after_join, match_lazy_upto_prefix.
Qed.

(** ** Dictionaries filled in a loop *)

Section InsertLoop.

Context {A : Type} (key : A → string) (v : A → val).

Lemma insert_loop_lookup_ne (l : list A) (data : gmap string val) k :
  k ∉ key <$> l →
  foldl (λ d x, <[key x := v x]> d) data l !! k = data !! k.
Proof.
  revert data. induction l as [|x l IH]; intros data Hk; simpl; [done|].
  rewrite fmap_cons, not_elem_of_cons in Hk. destruct Hk as [Hne Hk].
  rewrite IH by done. by rewrite lookup_insert_ne.
Qed.


Lemma insert_loop_forall (P : val → Prop) (l : list A) (data : gmap string val) :
  (∀ x, P (v x)) → map_Forall (λ _, P) data →
  map_Forall (λ _, P) (foldl (λ d x, <[key x := v x]> d) data l).
Proof.
  intros Hv. revert data. induction l as [|x l IH]; intros data Hd; simpl; [done|].
  apply IH. by apply map_Forall_insert_2.
Qed.

End InsertLoop.

(** The loops that assign one constant to every key of a list. *)
Section ConstLoop.

Context (c : val).

Lemma const_loop_lookup_ne (l : list string) (data : gmap string val) k :
  k ∉ l → foldl (λ d k', <[k' := c]> d) data l !! k = data !! k.
Proof.
  intros Hk. apply (insert_loop_lookup_ne id (λ _, c)). by rewrite list_fmap_id.
Qed.

Lemma const_loop_lookup (l : list string) (data : gmap string val) k :
  k ∈ l → foldl (λ d k', <[k' := c]> d) data l !! k = Some c.
Proof.
  revert data. induction l as [|x l IH]; intros data Hk; simpl.
  - by apply elem_of_nil in Hk.
  - destruct (decide (k ∈ l)) as [Hin|Hnin]; [by apply IH|].
    apply elem_of_cons in Hk as [->|Hk]; [|done].
    rewrite const_loop_lookup_ne by done. apply lookup_insert_eq.
Qed.


Lemma const_loop_forall (P : val → Prop) (l : list string)
    (data : gmap string val) :
  P c → map_Forall (λ _, P) data →
  map_Forall (λ _, P) (foldl (λ d k', <[k' := c]> d) data l).
Proof. intros Hc. by apply (insert_loop_forall id (λ _, c)). Qed.

End ConstLoop.

(** ** The loop over [UI_MAPPING] *)

Ltac not_in_writes H :=
  repeat (rewrite not_elem_of_cons in H || rewrite not_elem_of_app in H);
  destruct_and?.

Lemma split_pair_lookup_ne mk nk value (data : gmap string val) k :
  k ∉ [mk; nk] → split_pair mk nk value data !! k = data !! k.
Proof.
  intros H. not_in_writes H. unfold split_pair.
  destruct (split (u "/") value) as [|p0 [|p1 [|p2 ps]]]; try done.
  by rewrite !lookup_insert_ne.
Qed.

Lemma table_get_elem (t : list (list N * string)) s key :
  table_get t s = Some key → key ∈ t.*2.
Proof.
  induction t as [|[a b] t IH]; simpl; [done|].
  destruct (eqb a s); [intros [= ->]; left|right; auto].
Qed.

Lemma ui_step_lookup_ne soup (data : gmap string val) entry k :
  k ∉ writes entry.2 → ui_step soup data entry !! k = data !! k.
Proof.
  destruct entry as [jp_label output_key]. unfold ui_step, writes. cbn [snd].
  destruct (get_value_by_label soup jp_label) as [[|c value]|]; [done| |done].
  repeat case_decide; intros Hk.
  - destruct (parse_japanese_address (c :: value)) as [[[p ci] di] cb].
    not_in_writes Hk. by rewrite !lookup_insert_ne.
  - pose proof (const_loop_lookup_ne (VStr (u "N")) _ data k Hk) as Hl.
    destruct (table_get JP_TO_EN_FACING (strip (c :: value))) as [kn|] eqn:Hg; [|done].
    case_decide; [done|]. rewrite lookup_insert_ne; [done|].
    intros ->. by apply Hk, table_get_elem with (strip (c :: value)).
  - apply not_elem_of_app in Hk as [Hmap Hdef].
    rewrite const_loop_lookup_ne by done.
    by apply (insert_loop_lookup_ne snd).
  - not_in_writes Hk. by rewrite !lookup_insert_ne.
  - by apply split_pair_lookup_ne.
  - by apply split_pair_lookup_ne.
  - subst. not_in_writes Hk. by rewrite lookup_insert_ne.
  - not_in_writes Hk. by rewrite lookup_insert_ne.
Qed.



Lemma split_pair_not_num mk nk value (data : gmap string val) :
  map_Forall (λ _, not_num) data →
  map_Forall (λ _, not_num) (split_pair mk nk value data).
Proof.
  intros Hd. unfold split_pair.
  destruct (split (u "/") value) as [|p0 [|p1 [|p2 ps]]]; try done.
  by repeat apply map_Forall_insert_2.
Qed.

Lemma of_opt_not_num o : not_num (of_opt o).
Proof. by destruct o. Qed.

Lemma ui_step_not_num soup (data : gmap string val) entry :
  map_Forall (λ _, not_num) data →
  map_Forall (λ _, not_num) (ui_step soup data entry).
Proof.
  intros Hd. destruct entry as [jp_label output_key]. unfold ui_step.
  destruct (get_value_by_label soup jp_label) as [[|c value]|]; [done| |done].
  repeat case_decide.
  - destruct (parse_japanese_address (c :: value)) as [[[p ci] di] cb].
    repeat apply map_Forall_insert_2; try done; apply of_opt_not_num.
  - assert (map_Forall (λ _, not_num)
              (foldl (λ d k, <[k := VStr (u "N")]> d) data JP_TO_EN_FACING.*2)) as Hn
      by by apply const_loop_forall.
    destruct (table_get _ _); [|done].
    case_decide; [done|]. by apply map_Forall_insert_2.
  - apply const_loop_forall; [done|].
    by apply (insert_loop_forall snd).
  - repeat apply map_Forall_insert_2; try done; apply of_opt_not_num.
  - by apply split_pair_not_num.
  - by apply split_pair_not_num.
  - by apply map_Forall_insert_2.
  - by apply map_Forall_insert_2.
Qed.


(** The loop as a whole. *)
Section Loop.

Variable soup : list node.

Lemma loop_lookup_ne (l : list (list N * string)) (data : gmap string val) k :
  Forall (λ entry, k ∉ writes entry.2) l →
  foldl (ui_step soup) data l !! k = data !! k.
Proof.
  revert data. induction l as [|e l IH]; intros data Hl; simpl; [done|].
  apply Forall_cons in Hl as [He Hl].
  rewrite IH by done. by apply ui_step_lookup_ne.
Qed.


Lemma loop_not_num (l : list (list N * string)) (data : gmap string val) :
  map_Forall (λ _, not_num) data →
  map_Forall (λ _, not_num) (foldl (ui_step soup) data l).
Proof.
  revert data. induction l as [|e l IH]; intros data Hd; simpl; [done|].
  by apply IH, ui_step_not_num.
Qed.

(** The only turn that may assign [k] is the one at position [n]. *)
Lemma loop_single (data : gmap string val) n entry k :
  UI_MAPPING !! n = Some entry →
  Forall (λ e, k ∉ writes e.2) (take n UI_MAPPING ++ drop (S n) UI_MAPPING) →
  ∃ before : gmap string val,
    before !! k = data !! k ∧
    foldl (ui_step soup) data UI_MAPPING !! k = ui_step soup before entry !! k.
Proof.
  intros Hn Hall. apply Forall_app in Hall as [Hpre Hpost].
  exists (foldl (ui_step soup) data (take n UI_MAPPING)).
  split; [by apply loop_lookup_ne|].
  rewrite <- (take_drop_middle UI_MAPPING n entry Hn) at 1.
  rewrite foldl_app. simpl. by rewrite loop_lookup_ne.
Qed.

End Loop.


Lemma empty_record_lookup K k :
  empty_record K !! k = if decide (k ∈ K) then Some VNone else None.
Proof.
  unfold empty_record. case_decide as Hk.
  - by apply const_loop_lookup.
  - by rewrite const_loop_lookup_ne.
Qed.

Lemma start_record_not_num K url now :
  map_Forall (λ _, not_num) (start_record K url now).
Proof.
  unfold start_record. cbv zeta. repeat apply map_Forall_insert_2; try done.
  apply const_loop_forall; [done|]. apply map_Forall_empty.
Qed.

Lemma ui_loop_eq soup (data : gmap string val) :
  ui_loop soup data = foldl (ui_step soup) data UI_MAPPING.
Proof. reflexivity. Qed.

Lemma loop_result_not_num K url now soup k :
  not_num (get (loop_result K url now soup) k).
Proof.
  pose proof (loop_not_num soup UI_MAPPING _ (start_record_not_num K url now)) as H.
  rewrite <- ui_loop_eq in H.
  unfold get. destruct (loop_result K url now soup !! k) as [x|] eqn:Hx; [|done].
  exact (H k x Hx).
Qed.

(** ** The image collector *)

Lemma image_category_inj i j : image_category i = image_category j → i = j.
Proof.
  unfold image_category. intros H. by apply (inj (String.app _)), (inj pretty) in H.
Qed.

Lemma image_url_inj i j : image_url i = image_url j → i = j.
Proof.
  unfold image_url. intros H. by apply (inj (String.app _)), (inj pretty) in H.
Qed.

Lemma image_category_ne_url i j : image_category i ≠ image_url j.
Proof.
  intros H. apply (f_equal (String.prefix "image_c")) in H. discriminate H.
Qed.

Lemma image_url_ne_category i j : image_url i ≠ image_category j.
Proof. intros H. symmetry in H. by apply image_category_ne_url in H. Qed.

Ltac image_key_ne :=
  intros; split;
  first [ apply image_category_ne_url
        | apply image_url_ne_category
        | intros ?%image_category_inj; lia
        | intros ?%image_url_inj; lia ].

Lemma image_category_prefix i : String.prefix "image_" (image_category i) = true.
Proof. reflexivity. Qed.

Lemma image_url_prefix i : String.prefix "image_" (image_url i) = true.
Proof. reflexivity. Qed.

Lemma collect_images_eq images max_images count (data : gmap string val) :
  count ≤ max_images →
  let vs := take (max_images - count) (List.filter valid_image images) in
  collect_images images max_images count data
  = (count + length vs, store_images vs count data).
Proof.
  revert count data. induction images as [|img rest IH]; intros count data Hc; simpl.
  - rewrite take_nil. simpl. f_equal. lia.
  - case_bool_decide as Hm.
    + replace (max_images - count) with 0 by lia. simpl. f_equal. lia.
    + pose proof (eq_refl (valid_image img)) as Hv. unfold valid_image at 2 in Hv.
      destruct (image_source img) as [[|c url]|] eqn:Hsrc; rewrite Hv;
        try (apply IH; lia).
      rewrite IH by lia.
      replace (max_images - count) with (S (max_images - S count)) by lia.
      simpl. unfold slot_url. rewrite Hsrc. simpl. f_equal. lia.
Qed.

Lemma store_images_lookup_ne vs count (data : gmap string val) k :
  (∀ i, count < i ≤ count + length vs →
        k ≠ image_category i ∧ k ≠ image_url i) →
  store_images vs count data !! k = data !! k.
Proof.
  revert count data. induction vs as [|img rest IH]; intros count data Hk; simpl; [done|].
  rewrite IH.
  - destruct (Hk (S count)) as [H1 H2]; [simpl; lia|].
    by rewrite !lookup_insert_ne.
  - intros i Hi. apply Hk. simpl. lia.
Qed.

Lemma store_images_lookup vs count (data : gmap string val) j img :
  vs !! j = Some img →
  store_images vs count data !! image_category (count + 1 + j)
    = Some (VStr (image_alt img)) ∧
  store_images vs count data !! image_url (count + 1 + j)
    = Some (VStr (slot_url img)).
Proof.
  revert count data j. induction vs as [|img' rest IH]; intros count data j Hj; [done|].
  destruct j as [|j]; simpl in *.
  - injection Hj as ->. replace (count + 1 + 0) with (S count) by lia.
    rewrite !store_images_lookup_ne.
    + rewrite lookup_insert_ne by apply image_url_ne_category.
      by rewrite !lookup_insert_eq.
    + image_key_ne.
    + image_key_ne.
  - replace (count + 1 + S j) with (S count + 1 + j) by lia. by apply IH.
Qed.

Lemma store_images_dom vs count (data : gmap string val) :
  dom (store_images vs count data)
  = dom data ∪ (list_to_set (image_category <$> seq (S count) (length vs))
                ∪ list_to_set (image_url <$> seq (S count) (length vs))).
Proof.
  revert count data. induction vs as [|img rest IH]; intros count data;
    cbn [store_images length seq].
  - rewrite !fmap_nil, !list_to_set_nil. by rewrite !(right_id_L ∅ (∪)).
  - rewrite !fmap_cons, !list_to_set_cons, IH, !dom_insert_L.
    generalize (list_to_set (image_category <$> seq (S (S count)) (length rest)) : gset string).
    generalize (list_to_set (image_url <$> seq (S (S count)) (length rest)) : gset string).
    generalize (image_category (S count)), (image_url (S count)). clear.
    set_solver.
Qed.

(** The second loop, by the number [n] of slots that it clears. *)
Lemma fill_loop_lookup_ne n start (data : gmap string val) k :
  (∀ i, start ≤ i < start + n → k ≠ image_category i ∧ k ≠ image_url i) →
  foldl (λ d i, <[image_url i := VNone]> (<[image_category i := VNone]> d))
        data (seq start n) !! k = data !! k.
Proof.
  revert start data. induction n as [|n IH]; intros start data Hk; simpl; [done|].
  rewrite IH.
  - destruct (Hk start) as [H1 H2]; [lia|]. by rewrite !lookup_insert_ne.
  - intros i Hi. apply Hk. lia.
Qed.

Lemma fill_loop_lookup n start (data : gmap string val) i :
  start ≤ i < start + n →
  let d := foldl (λ d i, <[image_url i := VNone]> (<[image_category i := VNone]> d))
                 data (seq start n) in
  d !! image_category i = Some VNone ∧ d !! image_url i = Some VNone.
Proof.
  revert start data. induction n as [|n IH]; intros start data Hi; simpl; [lia|].
  destruct (decide (i = start)) as [->|Hne].
  - rewrite !fill_loop_lookup_ne.
    + rewrite lookup_insert_ne by apply image_url_ne_category.
      by rewrite !lookup_insert_eq.
    + image_key_ne.
    + image_key_ne.
  - apply IH. lia.
Qed.

Lemma fill_loop_dom n start (data : gmap string val) :
  dom (foldl (λ d i, <[image_url i := VNone]> (<[image_category i := VNone]> d))
             data (seq start n))
  = dom data ∪ (list_to_set (image_category <$> seq start n)
                ∪ list_to_set (image_url <$> seq start n)).
Proof.
  revert start data. induction n as [|n IH]; intros start data;
    cbn [foldl seq].
  - rewrite !fmap_nil, !list_to_set_nil. by rewrite !(right_id_L ∅ (∪)).
  - rewrite !fmap_cons, !list_to_set_cons, IH, !dom_insert_L.
    generalize (list_to_set (image_category <$> seq (S start) n) : gset string).
    generalize (list_to_set (image_url <$> seq (S start) n) : gset string).
    generalize (image_category start), (image_url start). clear.
    set_solver.
Qed.

(** [parse_images] in closed form. *)
Lemma parse_images_eq soup (data : gmap string val) max_images :
  let vs := take max_images (List.filter valid_image (select "img" soup)) in
  parse_images soup data max_images
  = fill_images max_images (length vs) (store_images vs 0 data).
Proof.
  unfold parse_images.
  rewrite (collect_images_eq _ max_images 0 data) by lia.
  by rewrite Nat.sub_0_r.
Qed.

Lemma parse_images_lookup_other soup (data : gmap string val) max_images k :
  String.prefix "image_" k = false →
  parse_images soup data max_images !! k = data !! k.
Proof.
  intros Hk. rewrite parse_images_eq. unfold fill_images.
  assert (∀ i, k ≠ image_category i ∧ k ≠ image_url i) as Hne.
  { intros i. split; intros ->; [by rewrite image_category_prefix in Hk|
                                 by rewrite image_url_prefix in Hk]. }
  rewrite fill_loop_lookup_ne by auto. by apply store_images_lookup_ne.
Qed.

Lemma parse_images_dom soup (data : gmap string val) max_images :
  dom (parse_images soup data max_images) = dom data ∪ image_keys max_images.
Proof.
  rewrite parse_images_eq. unfold fill_images, image_keys.
  set (vs := take max_images _).
  assert (length vs ≤ max_images) as Hlen.
  { unfold vs. rewrite length_take. lia. }
  rewrite fill_loop_dom, store_images_dom.
  replace (seq 1 max_images)
    with (seq 1 (length vs) ++ seq (length vs + 1) (max_images + 1 - (length vs + 1))).
  - rewrite !fmap_app, !list_to_set_app_L.
    generalize (list_to_set (image_category <$> seq 1 (length vs)) : gset string).
    generalize (list_to_set (image_url <$> seq 1 (length vs)) : gset string).
    generalize (list_to_set (image_category <$>
      seq (length vs + 1) (max_images + 1 - (length vs + 1))) : gset string).
    generalize (list_to_set (image_url <$>
      seq (length vs + 1) (max_images + 1 - (length vs + 1))) : gset string).
    generalize (dom data). clear. set_solver.
  - replace (length vs + 1) with (1 + length vs) at 1 by lia.
    rewrite <- seq_app. f_equal. lia.
Qed.

(** ** The rent and the derived fees *)

Lemma parse_rent_eq v : not_num v → parse_rent v = Ok (rent_of v).
Proof.
  destruct v as [|s|x]; [done| |done]. intros _.
  unfold parse_rent, rent_of, rent_of_text. cbn [truthy is_str].
  destruct (nonempty s && negb (eqb s (u "-"))); [|done].
  cbn [as_str mbind result_bind]. unfold split.
  destruct (split_go (u "〜") s 0) as [|p ps] eqn:Hs;
    [by apply split_go_cons in Hs|].
  cbn [index0 hd mbind result_bind]. unfold float_of_str.
  by destruct (PyFloat.of_str (rent_str p)).
Qed.

Lemma derive_fee_lookup_ne rent factor k' (data : gmap string val) k :
  k ≠ k' → derive_fee rent factor k' data !! k = data !! k.
Proof.
  intros Hk. unfold derive_fee. destruct (truthy (get data k')); [done|].
  by rewrite lookup_insert_ne.
Qed.

Lemma derive_fee_lookup rent factor k (data : gmap string val) :
  truthy (get data k) = false →
  derive_fee rent factor k data !! k
  = Some (VNum (PyFloat.round0 (PyFloat.mul rent factor))).
Proof. intros H. unfold derive_fee. rewrite H. apply lookup_insert_eq. Qed.


Lemma apply_fees_lookup_ne rent (data : gmap string val) k :
  k ∉ fee_keys → apply_fees rent data !! k = data !! k.
Proof.
  intros H. unfold fee_keys in H. not_in_writes H.
  unfold apply_fees. by rewrite !derive_fee_lookup_ne.
Qed.

Lemma apply_fees_lookup rent (data : gmap string val) :
  truthy (get data "months_guarantor") = false →
  truthy (get data "numeric_guarantor") = false →
  truthy (get data "months_agency") = false →
  let d := apply_fees rent data in
  d !! "months_guarantor"
    = Some (VNum (PyFloat.round0 (PyFloat.mul rent PyFloat.lit_0_5))) ∧
  d !! "numeric_guarantor"
    = Some (VNum (PyFloat.round0 (PyFloat.mul rent PyFloat.lit_1_0))) ∧
  d !! "months_agency"
    = Some (VNum (PyFloat.round0 (PyFloat.mul rent PyFloat.lit_1_1))).
Proof.
  intros H1 H2 H3. unfold apply_fees. repeat split.
  - rewrite !derive_fee_lookup_ne by done. by apply derive_fee_lookup.
  - rewrite derive_fee_lookup_ne by done. apply derive_fee_lookup.
    unfold get. by rewrite derive_fee_lookup_ne.
  - apply derive_fee_lookup. unfold get. by rewrite !derive_fee_lookup_ne.
Qed.


(** [parse_property] always returns, and returns [the_record]. *)
Lemma parse_property_ok K url now soup :
  parse_property K url now soup = Ok (the_record K url now soup).
Proof.
  unfold parse_property, the_record, derive_fees. cbv zeta.
  rewrite parse_rent_eq by apply loop_result_not_num. reflexivity.
Qed.

(** Keys that no turn of the loop assigns keep their first value. *)
Lemma loop_result_untouched K url now soup k :
  bool_decide (Forall (λ e, k ∉ writes e.2) UI_MAPPING) = true →
  k ≠ "link" → k ≠ "create_date" →
  loop_result K url now soup !! k = empty_record K !! k.
Proof.
  intros Hk%bool_decide_eq_true Hl Hc.
  rewrite ui_loop_eq, loop_lookup_ne by done.
  unfold start_record. cbv zeta. by rewrite !lookup_insert_ne.
Qed.

Lemma empty_record_get K k : get (empty_record K) k = VNone.
Proof. unfold get. rewrite empty_record_lookup. by case_decide. Qed.

Lemma loop_result_fee_key K url now soup k :
  k ∈ fee_keys → get (loop_result K url now soup) k = VNone.
Proof.
  intros Hk. unfold get. rewrite loop_result_untouched.
  - apply empty_record_get.
  - unfold fee_keys in Hk. set_unfold. destruct_or!; subst; by vm_compute.
  - unfold fee_keys in Hk. set_unfold. by destruct_or!; subst.
  - unfold fee_keys in Hk. set_unfold. by destruct_or!; subst.
Qed.

(** A key that is neither a fee nor an image slot is left as the loop set it. *)
Lemma the_record_lookup K url now soup k :
  k ∉ fee_keys → String.prefix "image_" k = false →
  the_record K url now soup !! k = loop_result K url now soup !! k.
Proof.
  intros Hf Hi. unfold the_record. cbv zeta.
  rewrite parse_images_lookup_other by done. by apply apply_fees_lookup_ne.
Qed.

(** ** One field of the record *)

Lemma record_field K url now soup n entry k :
  UI_MAPPING !! n = Some entry → only_turn n k →
  ∃ before : gmap string val,
    before !! k = empty_record K !! k ∧
    the_record K url now soup !! k = ui_step soup before entry !! k.
Proof.
  intros Hn (Hall & Hfee & Himg & Hlink & Hdate).
  destruct (loop_single soup (start_record K url now) n entry k Hn Hall)
    as (before & Hb & Hl).
  exists before. split.
  - rewrite Hb. unfold start_record. cbv zeta. by rewrite !lookup_insert_ne.
  - rewrite the_record_lookup, ui_loop_eq by done. exact Hl.
Qed.

Lemma facing_only : Forall (only_turn 9) facing_keys.
Proof. apply (bool_decide_unpack _). by vm_compute. Qed.


Lemma pair_fields_only :
  Forall (λ f, ∃ n okey,
            UI_MAPPING !! n = Some (f.1.1, okey) ∧
            (okey = "deposit/security_deposit" ∨ okey = "key_money/amortization") ∧
            writes okey = [f.1.2; f.2] ∧
            only_turn n f.1.2 ∧ only_turn n f.2)
         pair_fields.
Proof.
  unfold pair_fields. constructor; [|constructor; [|constructor]].
  - exists 12, "deposit/security_deposit". simpl.
    repeat split; try reflexivity; auto;
      apply (bool_decide_unpack _); by vm_compute.
  - exists 13, "key_money/amortization". simpl.
    repeat split; try reflexivity; auto;
      apply (bool_decide_unpack _); by vm_compute.
Qed.

Lemma monthly_rent_only : only_turn 10 "monthly_rent".
Proof. apply (bool_decide_unpack _). by vm_compute. Qed.

(** *** What single turns do *)

Ltac pick_branch :=
  repeat (let Hb := fresh in case_decide as Hb; [discriminate Hb|]; clear Hb);
  (let Hb := fresh in case_decide as Hb; [clear Hb|done]).

Lemma facing_turn soup (data : gmap string val) label v k :
  get_value_by_label soup label = Some v → v ≠ [] → k ∈ facing_keys →
  ui_step soup data (label, "facing") !! k
  = Some (VStr (if bool_decide (table_get JP_TO_EN_FACING (strip v) = Some k)
                then u "Y" else u "N")).
Proof.
  intros Hv Hne Hk. unfold ui_step. rewrite Hv.
  destruct v as [|c v]; [done|]. pick_branch.
  pose proof (const_loop_lookup (VStr (u "N")) _ data k Hk) as Hn.
  destruct (table_get JP_TO_EN_FACING (strip (c :: v))) as [kn|] eqn:Hg.
  - case_decide as Hkn.
    + rewrite bool_decide_eq_false_2; [done|].
      intros [= ->]. subst k. revert Hk.
      change ("" ∉ facing_keys). apply (bool_decide_unpack _). by vm_compute.
    + destruct (decide (kn = k)) as [->|Hd].
      * rewrite lookup_insert_eq. by rewrite bool_decide_eq_true_2.
      * rewrite lookup_insert_ne by done.
        rewrite bool_decide_eq_false_2; [done|congruence].
  - by rewrite bool_decide_eq_false_2.
Qed.


Lemma pair_turn soup (data : gmap string val) label okey v :
  okey = "deposit/security_deposit" ∨ okey = "key_money/amortization" →
  get_value_by_label soup label = Some v → v ≠ [] →
  ∃ mk nk, writes okey = [mk; nk] ∧
           ui_step soup data (label, okey) = split_pair mk nk v data.
Proof.
  intros Hk Hv Hne. unfold ui_step. rewrite Hv.
  destruct v as [|c v]; [done|].
  destruct Hk as [-> | ->]; pick_branch; eexists _, _; split; reflexivity.
Qed.

Lemma monthly_rent_turn soup (data : gmap string val) label v :
  get_value_by_label soup label = Some v → v ≠ [] →
  ui_step soup data (label, "monthly_rent") !! "monthly_rent"
  = Some (VStr (if contains (u "〜") v
                then strip (hd [] (split (u "〜") v)) else v)).
Proof.
  intros Hv Hne. unfold ui_step. rewrite Hv.
  destruct v as [|c v]; [done|]. pick_branch. apply lookup_insert_eq.
Qed.

Lemma skipped_turn soup (data : gmap string val) label okey :
  get_value_by_label soup label = None ∨ get_value_by_label soup label = Some [] →
  ui_step soup data (label, okey) = data.
Proof. intros [H|H]; unfold ui_step; by rewrite H. Qed.

(** ** The facing flags *)

Lemma filter_at_most_one {A} (P : A → Prop) `{∀ x, Decision (P x)} (l : list A) :
  NoDup l → (∀ x y, x ∈ l → y ∈ l → P x → P y → x = y) →
  length (filter P l) ≤ 1.
Proof.
  induction 1 as [|a l Hnotin Hnd IH]; intros Huniq; [simpl; lia|].
  rewrite filter_cons. case_decide as Ha.
  - assert (filter P l = []) as ->; [|simpl; lia].
    destruct (filter P l) as [|y t] eqn:Hf; [done|]. exfalso.
    assert (y ∈ filter P l) as [Py Hy]%list_elem_of_filter by (rewrite Hf; left).
    apply Hnotin. rewrite (Huniq a y); [done|left|by right|done|done].
  - apply IH. intros x y Hx Hy. apply Huniq; by right.
Qed.

Lemma facing_keys_NoDup : NoDup facing_keys.
Proof. apply (bool_decide_unpack _). by vm_compute. Qed.

(** C3: at most one of the eight facing keys is ["Y"]; when the facing text
    is there and is no key of [JP_TO_EN_FACING], all eight are ["N"]. *)
Theorem facing_one_hot K url now soup :
  ∃ d, parse_property K url now soup = Ok d ∧
    length (filter (λ k, d !! k = Some (VStr (u "Y"))) facing_keys) ≤ 1 ∧
    (∀ v, get_value_by_label soup (u "方位") = Some v → v ≠ [] →
          table_get JP_TO_EN_FACING (strip v) = None →
          ∀ k, k ∈ facing_keys → d !! k = Some (VStr (u "N"))).
Proof.
  exists (the_record K url now soup). split; [apply parse_property_ok|].
  assert (∀ k, k ∈ facing_keys →
            ∃ before : gmap string val,
              before !! k = empty_record K !! k ∧
              the_record K url now soup !! k
              = ui_step soup before (u "方位", "facing") !! k) as Hfield.
  { intros k Hk. apply (record_field K url now soup 9); [reflexivity|].
    by apply (proj1 (Forall_forall _ _) facing_only). }
  split.
  - apply filter_at_most_one; [apply facing_keys_NoDup|].
    intros x y Hx Hy.
    destruct (Hfield x Hx) as (bx & Hbx & ->), (Hfield y Hy) as (by_ & Hby & ->).
    destruct (get_value_by_label soup (u "方位")) as [[|c v]|] eqn:Hv.
    + rewrite skipped_turn, Hbx, empty_record_lookup by auto.
      by case_decide.
    + rewrite !(facing_turn soup _ _ (c :: v)) by done.
      repeat case_bool_decide; try done. congruence.
    + rewrite skipped_turn, Hbx, empty_record_lookup by auto.
      by case_decide.
  - intros v Hv Hne Hnone k Hk.
    destruct (Hfield k Hk) as (before & _ & ->).
    rewrite (facing_turn soup _ _ v) by done.
    rewrite Hnone. by rewrite bool_decide_eq_false_2.
Qed.

(** A page whose facing text is no key of the table: the premises of the
    second part hold, and the eight flags are ["N"]. *)
Lemma facing_one_hot_witness :
  ∃ d, parse_property assigned_keys example_url example_now page_facing_unknown = Ok d ∧
       get_value_by_label page_facing_unknown (u "方位") = Some (u "南向き") ∧
       ∀ k, k ∈ facing_keys → d !! k = Some (VStr (u "N")).
Proof.
  destruct (facing_one_hot assigned_keys example_url example_now page_facing_unknown)
    as (d & Hd & _ & Hn).
  exists d. split; [exact Hd|]. split; [by vm_compute|].
  apply (Hn (u "南向き")); by vm_compute.
Defined.

(** ** The default features *)




(** ** The fields split at a slash *)

(** C5, as the code has it: each of the two parts is stripped of surrounding
    white space; the stripped part is stored, or ["0"] when it is the dash.
    With another number of parts neither key is assigned. *)
Theorem pair_fields_split K url now soup :
  ∃ d, parse_property K url now soup = Ok d ∧
    ∀ label mk nk v,
      (label, mk, nk) ∈ pair_fields →
      get_value_by_label soup label = Some v → v ≠ [] →
      match split (u "/") v with
      | [p0; p1] =>
          d !! mk = Some (VStr (if bool_decide (strip p0 = u "-")
                                then u "0" else strip p0)) ∧
          d !! nk = Some (VStr (if bool_decide (strip p1 = u "-")
                                then u "0" else strip p1))
      | _ => d !! mk = empty_record K !! mk ∧ d !! nk = empty_record K !! nk
      end.
Proof.
  exists (the_record K url now soup). split; [apply parse_property_ok|].
  intros label mk nk v Hin Hv Hne.
  destruct (proj1 (Forall_forall _ _) pair_fields_only _ Hin)
    as (n & okey & Hn & Hokey & Hw & Hmk & Hnk). simpl in Hn, Hw, Hmk, Hnk.
  destruct (record_field K url now soup n _ mk Hn Hmk) as (b1 & Hb1 & ->).
  destruct (record_field K url now soup n _ nk Hn Hnk) as (b2 & Hb2 & ->).
  destruct (pair_turn soup b1 label okey v Hokey Hv Hne) as (mk1 & nk1 & Hw1 & ->).
  destruct (pair_turn soup b2 label okey v Hokey Hv Hne) as (mk2 & nk2 & Hw2 & ->).
  rewrite Hw in Hw1, Hw2. injection Hw1 as <- <-. injection Hw2 as <- <-.
  assert (mk ≠ nk) as Hdiff.
  { destruct Hokey as [-> | ->]; vm_compute in Hw; by injection Hw as <- <-. }
  unfold split_pair.
  destruct (split (u "/") v) as [|p0 [|p1 [|p2 ps]]]; try done.
  unfold dash_zero, eqb. split.
  - rewrite lookup_insert_ne by done. apply lookup_insert_eq.
  - apply lookup_insert_eq.
Qed.

(** The two examples of the claim: ["2/300,000"] and ["-/-"]. *)
Lemma pair_fields_split_witness :
  ∃ d, parse_property assigned_keys example_url example_now page_deposit = Ok d ∧
       d !! "months_security_deposit" = Some (VStr (u "2")) ∧
       d !! "numeric_security_deposit" = Some (VStr (u "300,000")) ∧
       d !! "months_key" = Some (VStr (u "0")) ∧
       d !! "numeric_key" = Some (VStr (u "0")).
Proof.
  destruct (pair_fields_split assigned_keys example_url example_now page_deposit)
    as (d & Hd & H).
  exists d. split; [exact Hd|].
  assert (split (u "/") (u "2/300,000") = [u "2"; u "300,000"]) as Hs1
    by (by vm_compute).
  assert (split (u "/") (u "-/-") = [u "-"; u "-"]) as Hs2 by (by vm_compute).
  pose proof (H (u "敷金/保証金") "months_security_deposit"
                "numeric_security_deposit" (u "2/300,000")) as H1.
  pose proof (H (u "礼金/償却・敷引") "months_key" "numeric_key" (u "-/-")) as H2.
  rewrite Hs1 in H1. rewrite Hs2 in H2.
  destruct H1 as [H1a H1b]; [by left|by vm_compute|by vm_compute|].
  destruct H2 as [H2a H2b]; [right; by left|by vm_compute|by vm_compute|].
  repeat split; (etrans; [eassumption|by vm_compute]).
Defined.

(** Parts with white space around them: the second part [" -"] is not the
    dash, yet ["0"] is stored, and the first part is stored without its
    last blank. *)
Lemma pair_fields_counterexample :
  ∃ d, parse_property assigned_keys example_url example_now page_deposit_spaced = Ok d ∧
       get_value_by_label page_deposit_spaced (u "敷金/保証金") = Some (u "1ヶ月 / -") ∧
       split (u "/") (u "1ヶ月 / -") = [u "1ヶ月 "; u " -"] ∧
       u " -" ≠ u "-" ∧
       d !! "months_security_deposit" ≠ Some (VStr (u "1ヶ月 ")) ∧
       d !! "numeric_security_deposit" ≠ Some (VStr (u " -")) ∧
       d !! "months_security_deposit" = Some (VStr (u "1ヶ月")) ∧
       d !! "numeric_security_deposit" = Some (VStr (u "0")).
Proof.
  exists (the_record assigned_keys example_url example_now page_deposit_spaced).
  split; [apply parse_property_ok|].
  repeat split; by vm_compute.
Qed.

(** ** The monthly rent *)

Lemma split_head_char c v :
  contains [c] v = true →
  ∃ rest, v = hd [] (split [c] v) ++ c :: rest ∧
          contains [c] (hd [] (split [c] v)) = false.
Proof.
  unfold split. induction v as [|a r IH]; [done|].
  cbn [contains split_go startswith length]. rewrite andb_true_r.
  destruct (c =? a)%N eqn:Hca.
  - intros _. apply N.eqb_eq in Hca as ->. by exists r.
  - cbn [orb]. intros Hr. destruct (IH Hr) as (rest & Heq & Hno).
    destruct (split_go [c] r 0) as [|p ps] eqn:Hs;
      [by apply split_go_cons in Hs|].
    cbn [hd] in *. exists rest. split; [by rewrite Heq at 1|].
    cbn [contains startswith]. by rewrite Hca, andb_false_l, Hno.
Qed.

(** C6, as the code has it: of a rent text with a range separator, the part
    before the first separator is stored, stripped; what follows the
    separator, a currency suffix included, is dropped.  ["8.5〜9.2万円"] is
    stored as ["8.5"], and the rent derived from it is 85000. *)
Theorem rent_range_truncated K url now soup v :
  get_value_by_label soup (u "賃料") = Some v →
  contains (u "〜") v = true →
  ∃ d before rest,
    parse_property K url now soup = Ok d ∧
    v = before ++ u "〜" ++ rest ∧
    contains (u "〜") before = false ∧
    d !! "monthly_rent" = Some (VStr (strip before)) ∧
    (v = u "8.5〜9.2万円" →
       d !! "monthly_rent" = Some (VStr (u "8.5")) ∧
       parse_rent (get d "monthly_rent") = Ok (PyFloat.of_Z 85000)).
Proof.
  intros Hv Hc.
  assert (v ≠ []) as Hne by (by intros ->).
  destruct (split_head_char 0x301C%N v Hc) as (rest & Heq & Hno).
  assert (the_record K url now soup !! "monthly_rent"
          = Some (VStr (strip (hd [] (split (u "〜") v))))) as Hd.
  { destruct (record_field K url now soup 10 (u "賃料", "monthly_rent")
                "monthly_rent" eq_refl monthly_rent_only) as (b & _ & ->).
    rewrite (monthly_rent_turn soup b _ v Hv Hne). by rewrite Hc. }
  exists (the_record K url now soup), (hd [] (split (u "〜") v)), rest.
  split; [apply parse_property_ok|].
  split; [exact Heq|]. split; [exact Hno|]. split; [exact Hd|].
  intros ->. unfold get. rewrite Hd. split; by vm_compute.
Qed.

Lemma rent_range_truncated_witness :
  ∃ d, parse_property assigned_keys example_url example_now page_rent_range = Ok d ∧
       d !! "monthly_rent" = Some (VStr (u "8.5")) ∧
       parse_rent (get d "monthly_rent") = Ok (PyFloat.of_Z 85000).
Proof.
  destruct (rent_range_truncated assigned_keys example_url example_now
              page_rent_range (u "8.5〜9.2万円"))
    as (d & before & rest & Hd & _ & _ & _ & H); [by vm_compute|by vm_compute|].
  exists d. split; [exact Hd|]. by apply H.
Defined.

(** The stored rent of the example is ["8.5"], not ["8.5万円"]. *)
Lemma rent_range_counterexample :
  ∃ d, parse_property assigned_keys example_url example_now page_rent_range = Ok d ∧
       get_value_by_label page_rent_range (u "賃料") = Some (u "8.5〜9.2万円") ∧
       d !! "monthly_rent" = Some (VStr (u "8.5")) ∧
       d !! "monthly_rent" ≠ Some (VStr (u "8.5万円")).
Proof.
  exists (the_record assigned_keys example_url example_now page_rent_range).
  split; [apply parse_property_ok|].
  repeat split; by vm_compute.
Qed.

(** ** The key set of the record *)








(** Without that premise the key set depends on the page: with an empty
    schema, a page with a features text has keys that an empty page lacks. *)
Example key_set_needs_schema :
  dom (the_record [] example_url example_now page_features)
  ≠ dom (the_record [] example_url example_now (page [] [])).
Proof. apply (bool_decide_unpack _). by vm_compute. Qed.

(** ** The fees of a given rent *)

Example fees_of_100000 :
  let rent := PyFloat.of_Z 100000 in
  PyFloat.round0 (PyFloat.mul rent PyFloat.lit_0_5) = PyFloat.of_Z 50000 ∧
  PyFloat.round0 (PyFloat.mul rent PyFloat.lit_1_0) = PyFloat.of_Z 100000 ∧
  PyFloat.round0 (PyFloat.mul rent PyFloat.lit_1_1) = PyFloat.of_Z 110000.
Proof. repeat split; by vm_compute. Qed.

Example fees_of_zero :
  PyFloat.round0 (PyFloat.mul PyFloat.zero PyFloat.lit_0_5) = PyFloat.zero ∧
  PyFloat.round0 (PyFloat.mul PyFloat.zero PyFloat.lit_1_0) = PyFloat.zero ∧
  PyFloat.round0 (PyFloat.mul PyFloat.zero PyFloat.lit_1_1) = PyFloat.zero.
Proof. repeat split; by vm_compute. Qed.

Example literals_parse :
  PyFloat.of_str (u "0.5") = Some PyFloat.lit_0_5 ∧
  PyFloat.of_str (u "1.0") = Some PyFloat.lit_1_0 ∧
  PyFloat.of_str (u "1.1") = Some PyFloat.lit_1_1.
Proof. repeat split; by vm_compute. Qed.

(** C7: with the three fee keys not yet set, [derive_fees] stores
    [round(rent * 0.5, 0)], [round(rent * 1.0, 0)] and [round(rent * 1.1, 0)];
    for a rent of 100000 these are 50000, 100000 and 110000. *)
Theorem derived_fees (data : gmap string val) rent :
  parse_rent (get data "monthly_rent") = Ok rent →
  truthy (get data "months_guarantor") = false →
  truthy (get data "numeric_guarantor") = false →
  truthy (get data "months_agency") = false →
  ∃ d, derive_fees data = Ok d ∧
    d !! "months_guarantor"
      = Some (VNum (PyFloat.round0 (PyFloat.mul rent PyFloat.lit_0_5))) ∧
    d !! "numeric_guarantor"
      = Some (VNum (PyFloat.round0 (PyFloat.mul rent PyFloat.lit_1_0))) ∧
    d !! "months_agency"
      = Some (VNum (PyFloat.round0 (PyFloat.mul rent PyFloat.lit_1_1))) ∧
    (rent = PyFloat.of_Z 100000 →
       d !! "months_guarantor" = Some (VNum (PyFloat.of_Z 50000)) ∧
       d !! "numeric_guarantor" = Some (VNum (PyFloat.of_Z 100000)) ∧
       d !! "months_agency" = Some (VNum (PyFloat.of_Z 110000))).
Proof.
  intros Hrent H1 H2 H3. exists (apply_fees rent data).
  unfold derive_fees. rewrite Hrent. split; [reflexivity|].
  destruct (apply_fees_lookup rent data H1 H2 H3) as (Ha & Hb & Hc).
  repeat split; try assumption; subst rent.
  - rewrite Ha. by destruct fees_of_100000 as (-> & _ & _).
  - rewrite Hb. by destruct fees_of_100000 as (_ & -> & _).
  - rewrite Hc. by destruct fees_of_100000 as (_ & _ & ->).
Qed.

Lemma derived_fees_witness :
  ∃ d, derive_fees data_rent_10 = Ok d ∧
       d !! "months_guarantor" = Some (VNum (PyFloat.of_Z 50000)) ∧
       d !! "numeric_guarantor" = Some (VNum (PyFloat.of_Z 100000)) ∧
       d !! "months_agency" = Some (VNum (PyFloat.of_Z 110000)).
Proof.
  destruct (derived_fees data_rent_10 (PyFloat.of_Z 100000))
    as (d & Hd & _ & _ & _ & H); try by vm_compute.
  exists d. split; [exact Hd|]. by apply H.
Defined.

(** ** The image slots *)

Lemma fill_images_lookup_ne max_images count (data : gmap string val) k :
  (∀ i, count < i ≤ max_images → k ≠ image_category i ∧ k ≠ image_url i) →
  fill_images max_images count data !! k = data !! k.
Proof.
  intros Hk. unfold fill_images. apply fill_loop_lookup_ne.
  intros i Hi. apply Hk. lia.
Qed.

Lemma fill_images_lookup max_images count (data : gmap string val) i :
  count < i ≤ max_images →
  fill_images max_images count data !! image_category i = Some VNone ∧
  fill_images max_images count data !! image_url i = Some VNone.
Proof. intros Hi. unfold fill_images. apply fill_loop_lookup. lia. Qed.

(** C8: the valid images, in document order, fill the slots from 1 on, at
    most [max_images] of them; an image without any of the three source
    attributes is not valid; the slots after the last filled one, up to
    [max_images], hold [None] twice; no slot beyond [max_images] is
    assigned.  With three valid images and 16 slots, the slots 1 to 3 are
    filled and the slots 4 to 16 are [None]. *)
Theorem image_slots soup (data : gmap string val) max_images :
  let vs := List.filter valid_image (select "img" soup) in
  let d := parse_images soup data max_images in
  (∀ img, attr img "src" = None → attr img "data-src" = None →
          attr img "data-lazy" = None → valid_image img = false) ∧
  (∀ i img, vs !! i = Some img → i < max_images →
            d !! image_category (i + 1) = Some (VStr (image_alt img)) ∧
            d !! image_url (i + 1) = Some (VStr (slot_url img))) ∧
  (∀ i, Nat.min (length vs) max_images < i ≤ max_images →
        d !! image_category i = Some VNone ∧ d !! image_url i = Some VNone) ∧
  (∀ i, max_images < i →
        d !! image_category i = data !! image_category i ∧
        d !! image_url i = data !! image_url i) ∧
  (length vs = 3 → max_images = 16 →
     (∀ i, 1 ≤ i ≤ 3 → ∃ category url,
             d !! image_category i = Some (VStr category) ∧
             d !! image_url i = Some (VStr url)) ∧
     (∀ i, 4 ≤ i ≤ 16 →
           d !! image_category i = Some VNone ∧ d !! image_url i = Some VNone)).
Proof.
  intros vs d.
  assert (d = fill_images max_images (length (take max_images vs))
                (store_images (take max_images vs) 0 data)) as Hd
    by apply parse_images_eq.
  assert (length (take max_images vs) = Nat.min (length vs) max_images) as Hlen
    by (rewrite length_take; lia).
  assert (∀ i img, vs !! i = Some img → i < max_images →
            d !! image_category (i + 1) = Some (VStr (image_alt img)) ∧
            d !! image_url (i + 1) = Some (VStr (slot_url img))) as Hfilled.
  { intros i img Hi Hlt.
    assert (take max_images vs !! i = Some img) as Ht
      by (by rewrite lookup_take_lt).
    pose proof (lookup_lt_Some _ _ _ Ht) as Hbound.
    rewrite Hd, !fill_images_lookup_ne by (image_key_ne).
    replace (i + 1) with (0 + 1 + i) by lia. by apply store_images_lookup. }
  assert (∀ i, Nat.min (length vs) max_images < i ≤ max_images →
            d !! image_category i = Some VNone ∧ d !! image_url i = Some VNone)
    as Hnone.
  { intros i Hi. rewrite Hd. apply fill_images_lookup. lia. }
  split; [|split; [exact Hfilled|split; [exact Hnone|split]]].
  - intros img H1 H2 H3. unfold valid_image, image_source, or_else.
    by rewrite H1, H2, H3.
  - intros i Hi. rewrite Hd, !fill_images_lookup_ne by (image_key_ne).
    rewrite !store_images_lookup_ne by (image_key_ne). done.
  - intros H3 ->. split.
    + intros i Hi. destruct (lookup_lt_is_Some_2 vs (i - 1)) as [img Himg]; [lia|].
      destruct (Hfilled (i - 1) img Himg) as [Hc Hu]; [lia|].
      replace (i - 1 + 1) with i in * by lia. eauto.
    + intros i Hi. apply Hnone. lia.
Qed.

Lemma image_slots_witness :
  let d := parse_images page_three_images ∅ 16 in
  length (List.filter valid_image (select "img" page_three_images)) = 3 ∧
  d !! image_category 1 = Some (VStr (u "外観")) ∧
  d !! image_url 1 = Some (VStr (u "https://rent.tokyu-housing-lease.co.jp/img/a.jpg")) ∧
  d !! image_url 2 = Some (VStr (u "https://cdn.example/b.jpg")) ∧
  d !! image_category 3 = Some (VStr (u "None")) ∧
  (∀ i, 4 ≤ i ≤ 16 →
        d !! image_category i = Some VNone ∧ d !! image_url i = Some VNone).
Proof.
  intros d.
  destruct (image_slots page_three_images ∅ 16) as (_ & Hfilled & _ & _ & H3).
  fold d in Hfilled, H3.
  split; [by vm_compute|].
  split; [etrans; [apply (Hfilled 0); [by vm_compute|lia]|by vm_compute]|].
  split; [etrans; [apply (Hfilled 0); [by vm_compute|lia]|by vm_compute]|].
  split; [etrans; [apply (Hfilled 1); [by vm_compute|lia]|by vm_compute]|].
  split; [etrans; [apply (Hfilled 2); [by vm_compute|lia]|by vm_compute]|].
  apply H3; by vm_compute.
Defined.

(** ** The rent never raises *)

Lemma rent_of_text_unparsable s :
  PyFloat.of_str (rent_number_text s) = None → rent_of_text s = PyFloat.zero.
Proof.
  unfold rent_of_text, rent_number_text. intros ->.
  by destruct (nonempty s && negb (eqb s (u "-"))).
Qed.

(** C9: for a rent that is [None] or a string, [parse_rent] returns; and
    when it is [None], the dash, or a text that [float] rejects, the rent
    is 0 and the three fees are computed from 0, which gives 0.  The whole
    of [parse_property] returns for every page. *)
Theorem rent_never_raises (monthly_rent : option (list N)) :
  (∃ rent, parse_rent (of_opt monthly_rent) = Ok rent) ∧
  (monthly_rent = None ∨ monthly_rent = Some (u "-") ∨
   (∃ s, monthly_rent = Some s ∧ float_of_str (rent_number_text s) = Raise ValueError) →
   parse_rent (of_opt monthly_rent) = Ok PyFloat.zero ∧
   (∀ data : gmap string val,
      get data "monthly_rent" = of_opt monthly_rent →
      derive_fees data = Ok (apply_fees PyFloat.zero data)) ∧
   PyFloat.round0 (PyFloat.mul PyFloat.zero PyFloat.lit_0_5) = PyFloat.zero ∧
   PyFloat.round0 (PyFloat.mul PyFloat.zero PyFloat.lit_1_0) = PyFloat.zero ∧
   PyFloat.round0 (PyFloat.mul PyFloat.zero PyFloat.lit_1_1) = PyFloat.zero) ∧
  (∀ K url now soup, ∃ d, parse_property K url now soup = Ok d).
Proof.
  assert (parse_rent (of_opt monthly_rent) = Ok (rent_of (of_opt monthly_rent)))
    as Hp by apply parse_rent_eq, of_opt_not_num.
  split; [eauto|]. split; [|intros; eexists; apply parse_property_ok].
  intros Hcase.
  assert (rent_of (of_opt monthly_rent) = PyFloat.zero) as Hz.
  { destruct Hcase as [-> | [-> | (s & -> & Hs)]]; [done|by vm_compute|].
    apply rent_of_text_unparsable. unfold float_of_str in Hs.
    by destruct (PyFloat.of_str (rent_number_text s)). }
  rewrite Hz in Hp. split; [exact Hp|]. split; [|exact fees_of_zero].
  intros data Hdata. unfold derive_fees. by rewrite Hdata, Hp.
Qed.

Lemma rent_never_raises_witness :
  parse_rent (VStr (u "応相談")) = Ok PyFloat.zero ∧
  parse_rent (VStr (u "-")) = Ok PyFloat.zero ∧
  parse_rent VNone = Ok PyFloat.zero.
Proof.
  split; [|split].
  - apply (rent_never_raises (Some (u "応相談"))).
    right; right. exists (u "応相談"). split; [reflexivity|by vm_compute].
  - apply (rent_never_raises (Some (u "-"))). right; by left.
  - apply (rent_never_raises None). by left.
Defined.

(** ** The fees are numbers *)

(** C10: in every record the three fee keys hold numbers; when no rent was
    stored, or the stored text is rejected by [float], the three numbers
    are 0. *)
Theorem fees_are_numbers K url now soup :
  ∃ d x y z,
    parse_property K url now soup = Ok d ∧
    d !! "months_guarantor" = Some (VNum x) ∧
    d !! "numeric_guarantor" = Some (VNum y) ∧
    d !! "months_agency" = Some (VNum z) ∧
    (get d "monthly_rent" = VNone ∨
     (∃ s, get d "monthly_rent" = VStr s ∧
           float_of_str (rent_number_text s) = Raise ValueError) →
     x = PyFloat.zero ∧ y = PyFloat.zero ∧ z = PyFloat.zero).
Proof.
  set (data := loop_result K url now soup).
  set (rent := rent_of (get data "monthly_rent")).
  exists (the_record K url now soup),
    (PyFloat.round0 (PyFloat.mul rent PyFloat.lit_0_5)),
    (PyFloat.round0 (PyFloat.mul rent PyFloat.lit_1_0)),
    (PyFloat.round0 (PyFloat.mul rent PyFloat.lit_1_1)).
  split; [apply parse_property_ok|].
  destruct (apply_fees_lookup rent data) as (Ha & Hb & Hc);
    try (unfold data; rewrite loop_result_fee_key;
         [reflexivity|apply (bool_decide_unpack _); by vm_compute]).
  unfold the_record. cbv zeta. fold data. fold rent.
  rewrite !parse_images_lookup_other by reflexivity.
  split; [exact Ha|]. split; [exact Hb|]. split; [exact Hc|].
  assert (get (parse_images soup (apply_fees rent data) 16) "monthly_rent"
          = get data "monthly_rent") as ->.
  { unfold get. rewrite parse_images_lookup_other by reflexivity.
    by rewrite apply_fees_lookup_ne by (apply (bool_decide_unpack _); by vm_compute). }
  intros Hcase.
  assert (rent = PyFloat.zero) as ->; [|exact fees_of_zero].
  unfold rent. destruct Hcase as [-> | (s & -> & Hs)]; [done|].
  apply rent_of_text_unparsable. unfold float_of_str in Hs.
  by destruct (PyFloat.of_str (rent_number_text s)).
Qed.

Lemma Ok_inj {A} (a b : A) : Ok a = Ok b → a = b.
Proof. by intros [= ->]. Qed.

Lemma fees_are_numbers_witness :
  ∃ d, parse_property assigned_keys example_url example_now page_rent_text = Ok d ∧
       d !! "monthly_rent" = Some (VStr (u "応相談")) ∧
       d !! "months_guarantor" = Some (VNum PyFloat.zero) ∧
       d !! "numeric_guarantor" = Some (VNum PyFloat.zero) ∧
       d !! "months_agency" = Some (VNum PyFloat.zero).
Proof.
  destruct (fees_are_numbers assigned_keys example_url example_now page_rent_text)
    as (d & x & y & z & Hd & Hx & Hy & Hz & H).
  assert (d = the_record assigned_keys example_url example_now page_rent_text) as Heq.
  { rewrite parse_property_ok in Hd. symmetry. exact (Ok_inj _ _ Hd). }
  assert (d !! "monthly_rent" = Some (VStr (u "応相談"))) as Hrent
    by (rewrite Heq; by vm_compute).
  destruct H as (-> & -> & ->).
  { right. exists (u "応相談"). unfold get. rewrite Hrent.
    split; [reflexivity|by vm_compute]. }
  exists d. by repeat split.
Defined.


(** * Further properties of the code *)

(** ** Searching the page *)

Lemma node_induction (P : node → Prop) :
  (∀ s, P (Text s)) →
  (∀ nm attrs children, Forall P children → P (Tag nm attrs children)) →
  ∀ n, P n.
Proof.
  intros Htext Htag. fix IH 1. intros [s|nm attrs children].
  - apply Htext.
  - apply Htag. induction children as [|c children IHc]; constructor.
    + apply IH.
    + apply IHc.
Qed.

Lemma occurs_cons n after c l : occurs n after l → occurs n after (c :: l).
Proof.
  intros [before|nm attrs children before behind H].
  - apply (occurs_here n after (c :: before)).
  - by apply (occurs_below n after nm attrs children (c :: before) behind).
Qed.

Lemma find_node_sound pred n after r :
  find_node pred n after = Some r →
  pred r.1 = true ∧
  ((r.1 = n ∧ r.2 = after) ∨
   ∃ nm attrs children, n = Tag nm attrs children ∧ occurs r.1 r.2 children).
Proof.
  revert after r. induction n as [s|nm attrs children IH] using node_induction;
    intros after r; [done|].
  cbn [find_node]. destruct (pred (Tag nm attrs children)) eqn:Hp.
  - intros [= <-]. split; [done|]. by left.
  - intros Hgo.
    assert (pred r.1 = true ∧ occurs r.1 r.2 children) as [H1 H2].
    { clear Hp. induction children as [|c children IHc]; [done|].
      apply Forall_cons in IH as [Hc Hrest].
      destruct (find_node pred c children) as [x|] eqn:Hx.
      - injection Hgo as ->. destruct (Hc _ _ Hx) as [Hpr [[<- <-]|Hbelow]].
        + split; [done|]. apply (occurs_here _ _ []).
        + split; [done|]. destruct Hbelow as (nm' & at' & ch' & -> & Ho).
          by apply (occurs_below _ _ nm' at' ch' [] children).
      - destruct (IHc Hrest Hgo) as [Hpr Ho]. split; [done|].
        by apply occurs_cons. }
    split; [done|]. right. eauto.
Qed.

Lemma find_sound pred soup tag after :
  find pred soup = Some (tag, after) →
  pred tag = true ∧ occurs tag after soup.
Proof.
  induction soup as [|c soup IH]; [done|]. cbn [find].
  destruct (find_node pred c soup) as [x|] eqn:Hx.
  - intros [= ->]. destruct (find_node_sound _ _ _ _ Hx) as [Hp [[H1 H2]|Hb]];
      simpl in *.
    + subst. split; [done|]. apply (occurs_here _ _ []).
    + split; [done|]. destruct Hb as (nm & attrs & ch & -> & Ho).
      by apply (occurs_below _ _ nm attrs ch [] soup).
  - intros H. destruct (IH H) as [Hp Ho]. split; [done|]. by apply occurs_cons.
Qed.

Lemma find_next_sibling_sound nm after sib :
  find_next_sibling nm after = Some sib →
  name_is nm sib = true ∧ sib ∈ after.
Proof.
  induction after as [|c after IH]; [done|]. cbn [find_next_sibling].
  destruct (name_is nm c) eqn:Hc.
  - intros [= ->]. split; [done|left].
  - intros H. destruct (IH H). split; [done|by right].
Qed.

(** X1: a value that [get_value_by_label] returns is the text of a [dd]
    (or [td]) tag of the page that stands, among its siblings, behind a
    [dt] (or [th]) tag whose text contains the label. *)
Theorem get_value_by_label_sound soup label v :
  get_value_by_label soup label = Some v →
  ∃ tag after sib,
    occurs tag after soup ∧ sib ∈ after ∧
    contains label (get_text tag) = true ∧
    v = get_text sib ∧
    ((name_is "dt" tag = true ∧ name_is "dd" sib = true) ∨
     (name_is "th" tag = true ∧ name_is "td" sib = true)).
Proof.
  unfold get_value_by_label.
  set (is_dt := λ tag, name_is "dt" tag && contains label (get_text tag)).
  set (is_th := λ tag, name_is "th" tag && contains label (get_text tag)).
  assert (∀ pred nm, sibling_text (find pred soup) nm = Some v →
            ∃ tag after sib, occurs tag after soup ∧ sib ∈ after ∧
              pred tag = true ∧ v = get_text sib ∧ name_is nm sib = true) as Hs.
  { intros pred nm. unfold sibling_text.
    destruct (find pred soup) as [[tag after]|] eqn:Hf; [|done].
    destruct (find_next_sibling nm after) as [sib|] eqn:Hn; [|done].
    intros [= <-]. apply find_sound in Hf as [Hp Ho].
    apply find_next_sibling_sound in Hn as [Hname Hin].
    by exists tag, after, sib. }
  destruct (sibling_text (find is_dt soup) "dd") as [w|] eqn:Hdt.
  - intros [= ->]. destruct (Hs _ _ Hdt) as (tag & after & sib & Ho & Hin & Hp & Hv & Hn).
    apply andb_true_iff in Hp as [Hp1 Hp2].
    exists tag, after, sib. repeat split; try done. by left.
  - intros Hth. destruct (Hs _ _ Hth) as (tag & after & sib & Ho & Hin & Hp & Hv & Hn).
    apply andb_true_iff in Hp as [Hp1 Hp2].
    exists tag, after, sib. repeat split; try done. by right.
Qed.

Lemma get_value_by_label_sound_witness :
  ∃ tag after sib,
    occurs tag after page_rent_range ∧ sib ∈ after ∧
    u "8.5〜9.2万円" = get_text sib ∧
    ((name_is "dt" tag = true ∧ name_is "dd" sib = true) ∨
     (name_is "th" tag = true ∧ name_is "td" sib = true)).
Proof.
  destruct (get_value_by_label_sound page_rent_range (u "賃料") (u "8.5〜9.2万円"))
    as (tag & after & sib & Ho & Hin & _ & Hv & Hnames); [by vm_compute|].
  by exists tag, after, sib.
Defined.

(** ** Stripped text *)

Lemma lstrip_starts_clean s : starts_clean (lstrip s) = true.
Proof.
  induction s as [|c s IH]; [done|]. cbn [lstrip].
  destruct (isspace c) eqn:Hc; [done|]. cbn [starts_clean]. by rewrite Hc.
Qed.

Lemma lstrip_clean s : starts_clean s = true → lstrip s = s.
Proof.
  destruct s as [|c s]; [done|]. cbn [starts_clean lstrip].
  by destruct (isspace c).
Qed.

Lemma lstrip_app a b :
  lstrip (a ++ b) = if forallb isspace a then lstrip b else lstrip a ++ b.
Proof.
  induction a as [|c a IH]; [done|]. cbn [app lstrip forallb].
  destruct (isspace c); [exact IH|done].
Qed.

Lemma starts_clean_app a b :
  starts_clean a = true → a ≠ [] → starts_clean (a ++ b) = true.
Proof. by destruct a. Qed.

(** Stripping at the right keeps a clean start. *)
Lemma rstrip_starts_clean s :
  starts_clean s = true → starts_clean (rev (lstrip (rev s))) = true.
Proof.
  destruct s as [|c s]; [done|]. cbn [starts_clean rev]. intros Hc.
  rewrite lstrip_app. destruct (forallb isspace (rev s)).
  - cbn [lstrip]. destruct (isspace c) eqn:E; [done|].
    cbn [rev app starts_clean]. by rewrite E.
  - rewrite rev_app_distr. exact Hc.
Qed.

Lemma strip_clean_both s :
  starts_clean (strip s) = true ∧ starts_clean (rev (strip s)) = true.
Proof.
  unfold strip. split.
  - apply rstrip_starts_clean, lstrip_starts_clean.
  - rewrite rev_involutive. apply lstrip_starts_clean.
Qed.

Lemma clean_both_strip s :
  starts_clean s = true → starts_clean (rev s) = true → strip s = s.
Proof.
  intros H1 H2. unfold strip.
  by rewrite (lstrip_clean s), (lstrip_clean (rev s)), rev_involutive.
Qed.

Lemma concat_clean_both (l : list (list N)) :
  Forall (λ p, p ≠ [] ∧ starts_clean p = true ∧ starts_clean (rev p) = true) l →
  starts_clean (concat l) = true ∧ starts_clean (rev (concat l)) = true.
Proof.
  induction 1 as [|p l (Hne & Hs & He) Hl [IH1 IH2]]; [done|]. simpl. split.
  - by apply starts_clean_app.
  - rewrite rev_app_distr. destruct (concat l) as [|c t] eqn:Hc; [done|].
    apply starts_clean_app; [done|]. intros Hnil.
    apply (f_equal (@length N)) in Hnil. rewrite length_rev in Hnil. done.
Qed.

Lemma get_text_stripped n : strip (get_text n) = get_text n.
Proof.
  unfold get_text.
  destruct (concat_clean_both
              (filter (λ s, nonempty s = true) (map strip (strings n))))
    as [H1 H2]; [|by apply clean_both_strip].
  apply Forall_forall. intros p [Hne Hin]%list_elem_of_filter.
  apply list_elem_of_fmap in Hin as (q & -> & _).
  destruct (strip_clean_both q). split; [|done]. by destruct (strip q).
Qed.

(** X2: a value that [get_value_by_label] returns starts and ends without
    white space: stripping it again changes nothing. *)
Theorem get_value_by_label_stripped soup label v :
  get_value_by_label soup label = Some v → strip v = v.
Proof.
  assert (∀ found nm, sibling_text found nm = Some v → strip v = v) as Hs.
  { intros [[tag after]|] nm; [|done]. unfold sibling_text.
    destruct (find_next_sibling nm after) as [sib|]; [|done].
    intros [= <-]. apply get_text_stripped. }
  unfold get_value_by_label.
  destruct (sibling_text (find _ soup) "dd") as [w|] eqn:Hdt.
  - intros [= ->]. eapply Hs, Hdt.
  - apply Hs.
Qed.

Lemma get_value_by_label_stripped_witness :
  strip (u "8.5〜9.2万円") = u "8.5〜9.2万円".
Proof.
  apply (get_value_by_label_stripped page_rent_range (u "賃料")). by vm_compute.
Defined.

(** ** The shape of the address components *)

Lemma match_lazy_upto_cut ends s m :
  Re.match_lazy_upto (Re.one_of ends) s = Some m → cut_at_first ends m.
Proof.
  revert m. induction s as [|c s IH]; intros m; [done|].
  cbn [Re.match_lazy_upto]. unfold Re.one_of at 1. case_bool_decide as Hc.
  - intros [= <-]. exists [], c. by repeat split.
  - destruct (c =? 10)%N eqn:Hnl; [done|].
    destruct (Re.match_lazy_upto (Re.one_of ends) s) as [m'|]; [|done].
    intros [= <-]. destruct (IH m' eq_refl) as (body & t & -> & Ht & Hbody).
    exists (c :: body), t. repeat split; [done|].
    constructor; [|done]. split; [done|]. by apply N.eqb_neq in Hnl.
Qed.

Lemma match_lazy_upto_absent ends s :
  Forall (λ x, x ∉ ends) s → Re.match_lazy_upto (Re.one_of ends) s = None.
Proof.
  induction 1 as [|c s Hc Hs IH]; [done|]. cbn [Re.match_lazy_upto].
  unfold Re.one_of at 1. rewrite bool_decide_eq_false_2 by done.
  rewrite IH. by destruct (c =? 10)%N.
Qed.

Lemma take_while_rest (f : N → bool) s :
  ∃ rest, s = Re.take_while f s ++ rest ∧
          Forall (λ x, f x = true) (Re.take_while f s) ∧
          match rest with [] => True | x :: _ => f x = false end.
Proof.
  induction s as [|c s (rest & Hs & Hall & Hrest)]; [by exists []|].
  cbn [Re.take_while]. destruct (f c) eqn:Hc.
  - exists rest. split; [simpl; by rewrite <- Hs|]. split; [by constructor|done].
  - exists (c :: s). by repeat split.
Qed.

Lemma match_non_digits_rest s :
  let district := Re.match_non_digits s in
  match district with
  | Some m => m ≠ [] ∧ Forall (λ x, isdecimal x = false) m
  | None => True
  end ∧
  match slice_after district s with
  | [] => True
  | x :: _ => isdecimal x = true
  end.
Proof.
  cbv zeta. unfold Re.match_non_digits.
  destruct (take_while_rest (λ c, negb (isdecimal c)) s) as (rest & Hs & Hall & Hrest).
  destruct (Re.take_while _ s) as [|c m] eqn:Ht.
  - split; [done|]. cbn [slice_after]. simpl in Hs. subst rest.
    destruct s as [|x s]; [done|]. by apply negb_false_iff in Hrest.
  - split.
    + split; [done|]. eapply Forall_impl; [exact Hall|].
      intros x Hx. by apply negb_true_iff in Hx.
    + cbn [slice_after nonempty]. rewrite Hs, drop_app_length.
      destruct rest as [|x rest]; [done|]. by apply negb_false_iff in Hrest.
Qed.

(** X3: a prefecture and a city, when found, are cut at the first
    character of their class, with no newline before it; a district, when
    found, is not empty and has no decimal digit; the remainder is empty or
    starts with a decimal digit. *)
Theorem address_shape (address : list N) :
  let '(prefecture, city, district, chome_banchi) :=
    parse_japanese_address address in
  match prefecture with
  | Some m => cut_at_first prefecture_ends m
  | None => True
  end ∧
  match city with
  | Some m => cut_at_first city_ends m
  | None => True
  end ∧
  match district with
  | Some m => m ≠ [] ∧ Forall (λ x, isdecimal x = false) m
  | None => True
  end ∧
  match chome_banchi with
  | [] => True
  | x :: _ => isdecimal x = true
  end.
Proof.
  unfold parse_japanese_address.
  fold prefecture_ends. fold city_ends.
  set (prefecture := Re.match_lazy_upto _ address).
  set (r1 := slice_after prefecture address).
  set (city := Re.match_lazy_upto _ r1).
  set (r2 := slice_after city r1).
  destruct (match_non_digits_rest r2) as [Hd Hc].
  repeat split; try done.
  - destruct prefecture as [m|] eqn:Hp; [|done]. by eapply match_lazy_upto_cut.
  - destruct city as [m|] eqn:Hci; [|done]. by eapply match_lazy_upto_cut.
Qed.

(** X4: an address without any of the eight closing characters has no
    prefecture and no city; its district is the leading run of characters
    that are no digits, and district and remainder make up the address. *)
Theorem address_without_ends (address : list N) :
  Forall (λ x, (x ∉ prefecture_ends) ∧ (x ∉ city_ends)) address →
  ∃ chome_banchi,
    parse_japanese_address address
    = (None, None, Re.match_non_digits address, chome_banchi) ∧
    default [] (Re.match_non_digits address) ++ chome_banchi = address.
Proof.
  intros Hall. unfold parse_japanese_address.
  fold prefecture_ends. fold city_ends.
  rewrite (match_lazy_upto_absent prefecture_ends address)
    by (eapply Forall_impl; [exact Hall|]; by intros x [? ?]).
  cbn [slice_after].
  rewrite (match_lazy_upto_absent city_ends address)
    by (eapply Forall_impl; [exact Hall|]; by intros x [? ?]).
  cbn [slice_after]. eexists. split; [reflexivity|].
  apply slice_after_join, match_non_digits_prefix.
Qed.

Lemma address_without_ends_witness :
  ∃ chome_banchi,
    parse_japanese_address (u "みなとみらい3-5")
    = (None, None, Re.match_non_digits (u "みなとみらい3-5"), chome_banchi) ∧
    default [] (Re.match_non_digits (u "みなとみらい3-5")) ++ chome_banchi
    = u "みなとみらい3-5".
Proof.
  apply address_without_ends. apply (bool_decide_unpack _). by vm_compute.
Defined.

(** ** Every turn has its own keys *)

Lemma turns_only :
  Forall (λ ne, Forall (only_turn ne.1) (writes ne.2.2))
         (imap (λ n e, (n, e)) UI_MAPPING).
Proof. apply (bool_decide_unpack _). by vm_compute. Qed.

Lemma turn_only n label key k :
  UI_MAPPING !! n = Some (label, key) → k ∈ writes key → only_turn n k.
Proof.
  intros Hn Hk.
  assert ((n, (label, key)) ∈ imap (λ n e, (n, e)) UI_MAPPING) as Hin.
  { by apply (elem_of_lookup_imap_2 (λ n e, (n, e))). }
  pose proof (proj1 (Forall_forall _ _) turns_only _ Hin) as Hall.
  by apply (proj1 (Forall_forall _ _) Hall).
Qed.

Lemma field_of_turn K url now soup label key k :
  (label, key) ∈ UI_MAPPING → k ∈ writes key →
  ∃ before : gmap string val,
    before !! k = empty_record K !! k ∧
    the_record K url now soup !! k = ui_step soup before (label, key) !! k.
Proof.
  intros [n Hn]%list_elem_of_lookup Hk.
  apply (record_field K url now soup n); [done|]. by eapply turn_only.
Qed.

(** X5: when the page has no text for a label, or an empty one, every key
    of that label's turn is as the empty record has it: [None] when the
    key is declared, absent otherwise. *)
Theorem missing_label_keeps_keys K url now soup label key k :
  (label, key) ∈ UI_MAPPING → k ∈ writes key →
  get_value_by_label soup label = None ∨ get_value_by_label soup label = Some [] →
  ∃ d, parse_property K url now soup = Ok d ∧
       d !! k = (if decide (k ∈ K) then Some VNone else None).
Proof.
  intros Hin Hk Hv. exists (the_record K url now soup).
  split; [apply parse_property_ok|].
  destruct (field_of_turn K url now soup label key k Hin Hk) as (b & Hb & ->).
  rewrite skipped_turn by done. rewrite Hb. apply empty_record_lookup.
Qed.

Lemma missing_label_keeps_keys_witness :
  ∃ d, parse_property assigned_keys example_url example_now page_rent_range = Ok d ∧
       d !! "facing_south" = Some VNone.
Proof.
  destruct (missing_label_keeps_keys assigned_keys example_url example_now
              page_rent_range (u "方位") "facing" "facing_south")
    as (d & Hd & Hk).
  - apply (bool_decide_unpack _). by vm_compute.
  - apply (bool_decide_unpack _). by vm_compute.
  - left. by vm_compute.
  - exists d. split; [exact Hd|]. rewrite Hk. by vm_compute.
Defined.

(** X6: a label whose output key has no branch of its own stores the text
    of the page as it is. *)
Theorem plain_field_verbatim K url now soup label key v :
  (label, key) ∈ UI_MAPPING → key ∉ special_keys →
  get_value_by_label soup label = Some v → v ≠ [] →
  ∃ d, parse_property K url now soup = Ok d ∧ d !! key = Some (VStr v).
Proof.
  intros Hin Hplain Hv Hne. exists (the_record K url now soup).
  split; [apply parse_property_ok|].
  unfold special_keys in Hplain. not_in_writes Hplain.
  assert (writes key = [key]) as Hw.
  { unfold writes. by repeat (case_decide; [done|]). }
  destruct (field_of_turn K url now soup label key key Hin) as (b & _ & ->).
  { rewrite Hw. left. }
  unfold ui_step. rewrite Hv. destruct v as [|c v]; [done|].
  repeat (case_decide; [done|]). apply lookup_insert_eq.
Qed.

Lemma plain_field_verbatim_witness :
  ∃ d, parse_property assigned_keys example_url example_now page_plain = Ok d ∧
       d !! "months_renewal" = Some (VStr (u "-")).
Proof.
  apply (plain_field_verbatim _ _ _ _ (u "更新料")).
  - apply (bool_decide_unpack _). by vm_compute.
  - apply (bool_decide_unpack _). by vm_compute.
  - by vm_compute.
  - by vm_compute.
Defined.

(** X7: with an address text on the page, the four address keys hold the
    outputs of [parse_japanese_address], and their texts joined give the
    address text of the page. *)
Theorem address_fields K url now soup v :
  get_value_by_label soup (u "所在地") = Some v → v ≠ [] →
  ∃ d, parse_property K url now soup = Ok d ∧
    let '(prefecture, city, district, chome_banchi) := parse_japanese_address v in
    d !! "prefecture" = Some (of_opt prefecture) ∧
    d !! "city" = Some (of_opt city) ∧
    d !! "district" = Some (of_opt district) ∧
    d !! "chome_banchi" = Some (VStr chome_banchi) ∧
    text_of (get d "prefecture") ++ text_of (get d "city")
      ++ text_of (get d "district") ++ text_of (get d "chome_banchi") = v.
Proof.
  intros Hv Hne. exists (the_record K url now soup).
  split; [apply parse_property_ok|].
  assert ((u "所在地", "address") ∈ UI_MAPPING) as Hin
    by (apply (bool_decide_unpack _); by vm_compute).
  assert (∀ k, k ∈ ["prefecture"; "city"; "district"; "chome_banchi"] →
            ∃ b : gmap string val,
              the_record K url now soup !! k
              = ui_step soup b (u "所在地", "address") !! k) as Hf.
  { intros k Hk.
    destruct (field_of_turn K url now soup _ _ k Hin Hk) as (b & _ & Hb). eauto. }
  assert (∀ b : gmap string val,
            ui_step soup b (u "所在地", "address")
            = let '(p, c, di, cb) := parse_japanese_address v in
              <["chome_banchi" := VStr cb]>
                (<["district" := of_opt di]>
                   (<["city" := of_opt c]> (<["prefecture" := of_opt p]> b)))) as Hstep.
  { intros b. unfold ui_step. rewrite Hv. destruct v as [|c v]; [done|].
    by case_decide. }
  pose proof (slice_after_join) as Hjoin.
  unfold parse_japanese_address in *.
  set (prefecture := Re.match_lazy_upto _ v) in *.
  set (r1 := slice_after prefecture v) in *.
  set (city := Re.match_lazy_upto _ r1) in *.
  set (r2 := slice_after city r1) in *.
  set (district := Re.match_non_digits r2) in *.
  assert (the_record K url now soup !! "prefecture" = Some (of_opt prefecture)) as H1.
  { destruct (Hf "prefecture") as (b & ->); [apply (bool_decide_unpack _); by vm_compute|].
    rewrite Hstep. by rewrite !lookup_insert_ne, lookup_insert_eq by done. }
  assert (the_record K url now soup !! "city" = Some (of_opt city)) as H2.
  { destruct (Hf "city") as (b & ->); [apply (bool_decide_unpack _); by vm_compute|].
    rewrite Hstep. by rewrite !lookup_insert_ne, lookup_insert_eq by done. }
  assert (the_record K url now soup !! "district" = Some (of_opt district)) as H3.
  { destruct (Hf "district") as (b & ->); [apply (bool_decide_unpack _); by vm_compute|].
    rewrite Hstep. by rewrite !lookup_insert_ne, lookup_insert_eq by done. }
  assert (the_record K url now soup !! "chome_banchi"
          = Some (VStr (slice_after district r2))) as H4.
  { destruct (Hf "chome_banchi") as (b & ->); [apply (bool_decide_unpack _); by vm_compute|].
    rewrite Hstep. by rewrite lookup_insert_eq. }
  repeat split; try done.
  unfold get. rewrite H1, H2, H3, H4. cbn [default from_option]. unfold id.
  assert (∀ o, text_of (of_opt o) = default [] o) as Ht by (by intros [?|]).
  rewrite !Ht. cbn [text_of].
  rewrite (Hjoin district r2) by apply match_non_digits_prefix.
  unfold r2. rewrite (Hjoin city r1) by apply match_lazy_upto_prefix.
  unfold r1. apply Hjoin, match_lazy_upto_prefix.
Qed.

Lemma address_fields_witness :
  ∃ d, parse_property assigned_keys example_url example_now page_address = Ok d ∧
       d !! "prefecture" = Some (VStr (u "東京都")) ∧
       d !! "city" = Some (VStr (u "渋谷区")) ∧
       d !! "district" = Some (VStr (u "神南")) ∧
       d !! "chome_banchi" = Some (VStr (u "1-2-3")).
Proof.
  destruct (address_fields assigned_keys example_url example_now page_address
              (u "東京都渋谷区神南1-2-3")) as (d & Hd & H);
    [by vm_compute|by vm_compute|].
  exists d. split; [exact Hd|].
  assert (parse_japanese_address (u "東京都渋谷区神南1-2-3")
          = (Some (u "東京都"), Some (u "渋谷区"), Some (u "神南"), u "1-2-3")) as Hp
    by (by vm_compute).
  rewrite Hp in H. destruct H as (H1 & H2 & H3 & H4 & _). by repeat split.
Defined.

(** ** More fields of the record *)

(** X8: with a floor text on the page, [floor_no] is the stripped text
    before the first slash and [floors] the stripped text between the first
    and the second slash; without a slash [floors] is assigned [None];
    parts after the second one are ignored. *)
Theorem floor_fields K url now soup v :
  get_value_by_label soup (u "所在階/階建") = Some v → v ≠ [] →
  ∃ d, parse_property K url now soup = Ok d ∧
    match split (u "/") v with
    | [] => False
    | [p0] =>
        d !! "floor_no" = Some (VStr (strip p0)) ∧ d !! "floors" = Some VNone
    | p0 :: p1 :: _ =>
        d !! "floor_no" = Some (VStr (strip p0)) ∧
        d !! "floors" = Some (VStr (strip p1))
    end.
Proof.
  intros Hv Hne. exists (the_record K url now soup).
  split; [apply parse_property_ok|].
  assert ((u "所在階/階建", "floor_no/floors") ∈ UI_MAPPING) as Hin
    by (apply (bool_decide_unpack _); by vm_compute).
  assert (∀ b : gmap string val,
            ui_step soup b (u "所在階/階建", "floor_no/floors")
            = <["floors" := of_opt (strip <$> split (u "/") v !! 1)]>
                (<["floor_no" := of_opt (strip <$> split (u "/") v !! 0)]> b)) as Hstep.
  { intros b. unfold ui_step. rewrite Hv. destruct v as [|c v]; [done|].
    by pick_branch. }
  destruct (field_of_turn K url now soup _ _ "floor_no" Hin) as (b1 & _ & H1);
    [apply (bool_decide_unpack _); by vm_compute|].
  destruct (field_of_turn K url now soup _ _ "floors" Hin) as (b2 & _ & H2);
    [apply (bool_decide_unpack _); by vm_compute|].
  rewrite Hstep in H1, H2.
  rewrite lookup_insert_ne, lookup_insert_eq in H1 by done.
  rewrite lookup_insert_eq in H2.
  pose proof (split_go_cons (u "/") v 0) as Hnil. fold (split (u "/") v) in Hnil.
  destruct (split (u "/") v) as [|p0 [|p1 ps]]; [done| |]; by rewrite H1, H2.
Qed.

Lemma floor_fields_witness :
  ∃ d, parse_property assigned_keys example_url example_now page_floor = Ok d ∧
       d !! "floor_no" = Some (VStr (u "3階")) ∧
       d !! "floors" = Some (VStr (u "10階建")).
Proof.
  destruct (floor_fields assigned_keys example_url example_now page_floor
              (u "3階 / 10階建")) as (d & Hd & H); [by vm_compute|by vm_compute|].
  exists d. split; [exact Hd|].
  assert (split (u "/") (u "3階 / 10階建") = [u "3階 "; u " 10階建"]) as Hs
    by (by vm_compute).
  rewrite Hs in H. destruct H as [H1 H2].
  split; (etrans; [eassumption|by vm_compute]).
Defined.

(** X9: the record holds the URL under [link] and the time under
    [create_date], whatever the page and the declared keys are. *)
Theorem link_and_date K url now soup :
  ∃ d, parse_property K url now soup = Ok d ∧
       d !! "link" = Some (VStr url) ∧ d !! "create_date" = Some (VStr now).
Proof.
  exists (the_record K url now soup). split; [apply parse_property_ok|].
  rewrite !the_record_lookup by (done || (apply (bool_decide_unpack _); by vm_compute)).
  rewrite ui_loop_eq, !loop_lookup_ne
    by (apply (bool_decide_unpack _); by vm_compute).
  unfold start_record. cbv zeta.
  by rewrite lookup_insert_ne, !lookup_insert_eq.
Qed.

Lemma features_keys_NoDup : NoDup FEATURES_MAPPING.*2.
Proof. apply (bool_decide_unpack _). by vm_compute. Qed.

Lemma insert_loop_lookup {A} (key : A → string) (v : A → val) (l : list A)
    (data : gmap string val) x :
  NoDup (key <$> l) → x ∈ l →
  foldl (λ d y, <[key y := v y]> d) data l !! key x = Some (v x).
Proof.
  revert data. induction l as [|y l IH]; intros data Hnd Hx.
  - by apply elem_of_nil in Hx.
  - rewrite fmap_cons in Hnd. apply NoDup_cons in Hnd as [Hy Hnd].
    cbn [foldl]. apply elem_of_cons in Hx as [->|Hx]; [|by apply IH].
    rewrite insert_loop_lookup_ne by done. apply lookup_insert_eq.
Qed.

(** X10: with a features text on the page, a feature key outside the
    default features is ["Y"] exactly when its Japanese name is one of the
    stripped items between the ideographic commas, and ["N"] otherwise. *)
Theorem feature_flags K url now soup v jp key :
  get_value_by_label soup (u "設備・条件") = Some v → v ≠ [] →
  (jp, key) ∈ FEATURES_MAPPING → key ∉ DEFAULT_FEATURES →
  ∃ d, parse_property K url now soup = Ok d ∧
       d !! key = Some (VStr (if bool_decide (jp ∈ strip <$> split (u "、") v)
                              then u "Y" else u "N")).
Proof.
  intros Hv Hne Hin Hnd. exists (the_record K url now soup).
  split; [apply parse_property_ok|].
  destruct (field_of_turn K url now soup (u "設備・条件") "features" key)
    as (b & _ & ->).
  - apply (bool_decide_unpack _). by vm_compute.
  - change (writes "features") with (FEATURES_MAPPING.*2 ++ DEFAULT_FEATURES).
    apply elem_of_app. left. apply list_elem_of_fmap. by exists (jp, key).
  - unfold ui_step. rewrite Hv. destruct v as [|c v]; [done|]. pick_branch.
    rewrite const_loop_lookup_ne by done.
    apply (insert_loop_lookup snd
             (λ f, VStr (if bool_decide (f.1 ∈ map strip (split (u "、") (c :: v)))
                         then u "Y" else u "N")) FEATURES_MAPPING b (jp, key));
      [apply features_keys_NoDup|done].
Qed.

Lemma feature_flags_witness :
  ∃ d, parse_property assigned_keys example_url example_now page_features = Ok d ∧
       d !! "balcony" = Some (VStr (u "Y")) ∧
       d !! "roof_balcony" = Some (VStr (u "N")).
Proof.
  destruct (feature_flags assigned_keys example_url example_now page_features
              (u "バルコニー、収納") (u "バルコニー") "balcony") as (d & Hd & H1);
    [by vm_compute|by vm_compute|apply (bool_decide_unpack _); by vm_compute
    |apply (bool_decide_unpack _); by vm_compute|].
  destruct (feature_flags assigned_keys example_url example_now page_features
              (u "バルコニー、収納") (u "屋上バルコニー") "roof_balcony") as (d' & Hd' & H2);
    [by vm_compute|by vm_compute|apply (bool_decide_unpack _); by vm_compute
    |apply (bool_decide_unpack _); by vm_compute|].
  rewrite Hd in Hd'. apply Ok_inj in Hd' as <-.
  exists d. split; [exact Hd|].
  split; (etrans; [eassumption|by vm_compute]).
Defined.

(** X11: with a facing text that, stripped, is a key of [JP_TO_EN_FACING],
    the flag that the table gives is ["Y"] and the seven others are ["N"]. *)
Theorem facing_matched K url now soup v key :
  get_value_by_label soup (u "方位") = Some v → v ≠ [] →
  table_get JP_TO_EN_FACING (strip v) = Some key →
  ∃ d, parse_property K url now soup = Ok d ∧
       d !! key = Some (VStr (u "Y")) ∧
       ∀ k, k ∈ facing_keys → k ≠ key → d !! k = Some (VStr (u "N")).
Proof.
  intros Hv Hne Hkey. exists (the_record K url now soup).
  split; [apply parse_property_ok|].
  assert (∀ k, k ∈ facing_keys →
            the_record K url now soup !! k
            = Some (VStr (if bool_decide (Some key = Some k) then u "Y" else u "N")))
    as Hf.
  { intros k Hk.
    destruct (record_field K url now soup 9 (u "方位", "facing") k eq_refl)
      as (b & _ & ->); [by apply (proj1 (Forall_forall _ _) facing_only)|].
    rewrite (facing_turn soup b _ v) by done. by rewrite Hkey. }
  split.
  - rewrite Hf by (by eapply table_get_elem). by rewrite bool_decide_eq_true_2.
  - intros k Hk Hne'. rewrite Hf by done.
    rewrite bool_decide_eq_false_2; [done|congruence].
Qed.

Lemma facing_matched_witness :
  ∃ d, parse_property assigned_keys example_url example_now page_facing_south_west = Ok d ∧
       d !! "facing_southwest" = Some (VStr (u "Y")) ∧
       d !! "facing_south" = Some (VStr (u "N")).
Proof.
  destruct (facing_matched assigned_keys example_url example_now
              page_facing_south_west (u "南西") "facing_southwest")
    as (d & Hd & Hy & Hn); [by vm_compute|by vm_compute|by vm_compute|].
  exists d. split; [exact Hd|]. split; [exact Hy|].
  apply Hn; [apply (bool_decide_unpack _); by vm_compute|done].
Defined.

(** X12: the output keys that stand for a branch ([address], [facing],
    [features] and the three with a slash) are never assigned themselves:
    such a key is in the record only when it is declared, with [None]. *)
Theorem branch_keys_never_assigned K url now soup k :
  k ∈ ["address"; "facing"; "features"; "floor_no/floors";
       "deposit/security_deposit"; "key_money/amortization"] →
  ∃ d, parse_property K url now soup = Ok d ∧
       d !! k = (if decide (k ∈ K) then Some VNone else None).
Proof.
  intros Hk. exists (the_record K url now soup).
  split; [apply parse_property_ok|].
  rewrite <- empty_record_lookup.
  repeat (apply elem_of_cons in Hk as [->|Hk]);
    [..|by apply elem_of_nil in Hk];
    (rewrite the_record_lookup, loop_result_untouched;
     [done|by vm_compute|done|done|apply (bool_decide_unpack _); by vm_compute|done]).
Qed.

Lemma branch_keys_never_assigned_witness :
  ∃ d, parse_property assigned_keys example_url example_now page_address = Ok d ∧
       d !! "address" = None.
Proof.
  destruct (branch_keys_never_assigned assigned_keys example_url example_now
              page_address "address") as (d & Hd & H); [by left|].
  exists d. split; [exact Hd|]. rewrite H. by vm_compute.
Defined.

(** ** Numbers in the record *)

Lemma store_images_forall (P : string → val → Prop) vs count
    (data : gmap string val) :
  (∀ k s, P k (VStr s)) → map_Forall P data →
  map_Forall P (store_images vs count data).
Proof.
  intros HP. revert count data.
  induction vs as [|img vs IH]; intros count data Hd; [done|].
  cbn [store_images]. apply IH. by repeat apply map_Forall_insert_2.
Qed.

Lemma fill_images_forall (P : string → val → Prop) max_images count
    (data : gmap string val) :
  (∀ k, P k VNone) → map_Forall P data →
  map_Forall P (fill_images max_images count data).
Proof.
  intros HP. unfold fill_images.
  generalize (seq (count + 1) (max_images + 1 - (count + 1))). intros l.
  revert data. induction l as [|i l IH]; intros data Hd; [done|].
  cbn [foldl]. apply IH. by repeat apply map_Forall_insert_2.
Qed.

Lemma derive_fee_number_only rent factor k (data : gmap string val) :
  k ∈ fee_keys → map_Forall number_only_fee data →
  map_Forall number_only_fee (derive_fee rent factor k data).
Proof.
  intros Hk Hd. unfold derive_fee. destruct (truthy (get data k)); [done|].
  apply map_Forall_insert_2; [by left|done].
Qed.

(** X13: a number occurs in the record under the three fee keys only;
    every other value is [None] or a string. *)
Theorem numbers_only_under_fee_keys K url now soup :
  ∃ d, parse_property K url now soup = Ok d ∧
       ∀ k x, d !! k = Some (VNum x) → k ∈ fee_keys.
Proof.
  exists (the_record K url now soup). split; [apply parse_property_ok|].
  assert (map_Forall number_only_fee (the_record K url now soup)) as Hall.
  { unfold the_record. cbv zeta. rewrite parse_images_eq.
    apply fill_images_forall; [by right|].
    apply store_images_forall; [by right|].
    unfold apply_fees.
    repeat (apply derive_fee_number_only;
            [apply (bool_decide_unpack _); by vm_compute|]).
    pose proof (loop_not_num soup UI_MAPPING _ (start_record_not_num K url now)) as H.
    rewrite <- ui_loop_eq in H.
    eapply map_Forall_impl; [exact H|]. intros k x Hx. by right. }
  intros k x Hk. by destruct (Hall k _ Hk).
Qed.

(** ** The guard of the fees *)

Lemma derive_fee_settled rent factor k (data : gmap string val) :
  (truthy (get data k) = false →
   data !! k = Some (VNum (PyFloat.round0 (PyFloat.mul rent factor)))) →
  derive_fee rent factor k data = data.
Proof.
  intros H. unfold derive_fee. destruct (truthy (get data k)); [done|].
  by apply insert_id, H.
Qed.

Lemma derive_fee_after rent factor k (data : gmap string val) :
  let d := derive_fee rent factor k data in
  truthy (get d k) = false →
  d !! k = Some (VNum (PyFloat.round0 (PyFloat.mul rent factor))).
Proof.
  cbv zeta. unfold derive_fee. destruct (truthy (get data k)) eqn:Ht.
  - by rewrite Ht.
  - intros _. apply lookup_insert_eq.
Qed.

Lemma derive_fee_get_ne rent factor k' (data : gmap string val) k :
  k ≠ k' → get (derive_fee rent factor k' data) k = get data k.
Proof. intros H. unfold get. by rewrite derive_fee_lookup_ne. Qed.

Lemma apply_fees_twice rent (data : gmap string val) :
  apply_fees rent (apply_fees rent data) = apply_fees rent data.
Proof.
  set (d1 := derive_fee rent PyFloat.lit_0_5 "months_guarantor" data).
  set (d2 := derive_fee rent PyFloat.lit_1_0 "numeric_guarantor" d1).
  set (d3 := derive_fee rent PyFloat.lit_1_1 "months_agency" d2).
  assert (apply_fees rent data = d3) as -> by done.
  unfold apply_fees.
  assert (derive_fee rent PyFloat.lit_0_5 "months_guarantor" d3 = d3) as ->.
  { apply derive_fee_settled. unfold d3, d2.
    rewrite !derive_fee_get_ne, !derive_fee_lookup_ne by done.
    apply derive_fee_after. }
  assert (derive_fee rent PyFloat.lit_1_0 "numeric_guarantor" d3 = d3) as ->.
  { apply derive_fee_settled. unfold d3.
    rewrite !derive_fee_get_ne, !derive_fee_lookup_ne by done.
    apply derive_fee_after. }
  apply derive_fee_settled, derive_fee_after.
Qed.

Lemma derive_fees_eq (data : gmap string val) rent :
  parse_rent (get data "monthly_rent") = Ok rent →
  derive_fees data = Ok (apply_fees rent data).
Proof. intros H. unfold derive_fees. by rewrite H. Qed.

(** X14: [derive_fees] leaves a fee key alone when it holds a true value
    (a non-empty string or a number other than zero). *)
Theorem fees_keep_set_values (data : gmap string val) d k :
  derive_fees data = Ok d → k ∈ fee_keys → truthy (get data k) = true →
  d !! k = data !! k.
Proof.
  unfold derive_fees. intros Hd Hk Ht.
  destruct (parse_rent (get data "monthly_rent")) as [rent|e]; [|done].
  apply Ok_inj in Hd as <-. unfold apply_fees, fee_keys in *.
  repeat (apply elem_of_cons in Hk as [->|Hk]); [..|by apply elem_of_nil in Hk].
  - rewrite !derive_fee_lookup_ne by done. unfold derive_fee. by rewrite Ht.
  - rewrite derive_fee_lookup_ne by done. unfold derive_fee at 1.
    by rewrite derive_fee_get_ne, Ht by done;
      rewrite derive_fee_lookup_ne by done.
  - unfold derive_fee at 1. by rewrite !derive_fee_get_ne, Ht by done;
      rewrite !derive_fee_lookup_ne by done.
Qed.

Lemma fees_keep_set_values_witness :
  ∃ d, derive_fees data_agency_set = Ok d ∧
       d !! "months_agency" = Some (VStr (u "1ヶ月")).
Proof.
  exists (apply_fees (PyFloat.of_Z 100000) data_agency_set).
  assert (derive_fees data_agency_set
          = Ok (apply_fees (PyFloat.of_Z 100000) data_agency_set)) as Hd
    by (apply derive_fees_eq; by vm_compute).
  split; [exact Hd|].
  rewrite (fees_keep_set_values data_agency_set _ "months_agency" Hd);
    [by vm_compute|apply (bool_decide_unpack _); by vm_compute|by vm_compute].
Defined.

(** X15: computing the fees of a record that [derive_fees] returned
    changes nothing. *)
Theorem derive_fees_idempotent (data : gmap string val) d :
  derive_fees data = Ok d → derive_fees d = Ok d.
Proof.
  unfold derive_fees.
  destruct (parse_rent (get data "monthly_rent")) as [rent|e] eqn:Hr; [|done].
  intros Hd. apply Ok_inj in Hd as <-.
  assert (get (apply_fees rent data) "monthly_rent" = get data "monthly_rent") as ->.
  { unfold get. by rewrite apply_fees_lookup_ne
      by (apply (bool_decide_unpack _); by vm_compute). }
  rewrite Hr. cbn [mbind result_bind mret result_ret].
  by rewrite apply_fees_twice.
Qed.

Lemma derive_fees_idempotent_witness :
  ∃ d, derive_fees data_rent_10 = Ok d ∧ derive_fees d = Ok d.
Proof.
  exists (apply_fees (PyFloat.of_Z 100000) data_rent_10).
  assert (derive_fees data_rent_10
          = Ok (apply_fees (PyFloat.of_Z 100000) data_rent_10)) as Hd
    by (apply derive_fees_eq; by vm_compute).
  split; [exact Hd|]. exact (derive_fees_idempotent _ _ Hd).
Defined.

(** ** Whole yen *)

Lemma fees_exact_all :
  forallb (λ a, forallb (fees_exact a) (seq 0 10)) (seq 0 1000) = true.
Proof. by vm_compute. Qed.

(** X16: for a rent text [a.b万円] with [a] below 1000 and one decimal
    [b], the rent is [1000 * (10 a + b)] yen and the three fees are 500,
    1000 and 1100 times [10 a + b], without any rounding error. *)
Theorem decimal_rents_exact a b :
  a < 1000 → b < 10 →
  let n := Z.of_nat (10 * a + b) in
  ∃ rent, parse_rent (VStr (rent_text a b)) = Ok rent ∧
    rent = PyFloat.of_Z (1000 * n) ∧
    PyFloat.round0 (PyFloat.mul rent PyFloat.lit_0_5) = PyFloat.of_Z (500 * n) ∧
    PyFloat.round0 (PyFloat.mul rent PyFloat.lit_1_0) = PyFloat.of_Z (1000 * n) ∧
    PyFloat.round0 (PyFloat.mul rent PyFloat.lit_1_1) = PyFloat.of_Z (1100 * n).
Proof.
  intros Ha Hb n.
  pose proof fees_exact_all as Hall.
  rewrite forallb_forall in Hall.
  assert (forallb (fees_exact a) (seq 0 10) = true) as Hrow
    by (apply Hall, in_seq; lia).
  rewrite forallb_forall in Hrow.
  assert (fees_exact a b = true) as Hab by (apply Hrow, in_seq; lia).
  unfold fees_exact in Hab. fold n in Hab.
  destruct (parse_rent (VStr (rent_text a b))) as [rent|e]; [|done].
  exists rent. split; [done|].
  repeat (apply andb_true_iff in Hab as [Hab ?]).
  repeat match goal with
         | H : bool_decide _ = true |- _ => apply bool_decide_eq_true in H
         end.
  by repeat split.
Qed.

Lemma decimal_rents_exact_witness :
  parse_rent (VStr (u "8.5万円")) = Ok (PyFloat.of_Z 85000).
Proof.
  destruct (decimal_rents_exact 8 5) as (rent & Hr & -> & _); [lia|lia|].
  exact Hr.
Defined.

(** ** More on the image slots *)

Lemma valid_images_lookup (images : list node) i img :
  List.filter valid_image images !! i = Some img → valid_image img = true.
Proof.
  intros H%list_elem_of_lookup_2%list_elem_of_In. by apply filter_In in H as [_ H].
Qed.

Lemma parse_images_filled soup (data : gmap string val) max_images i img :
  List.filter valid_image (select "img" soup) !! i = Some img → i < max_images →
  parse_images soup data max_images !! image_category (i + 1)
    = Some (VStr (image_alt img)) ∧
  parse_images soup data max_images !! image_url (i + 1)
    = Some (VStr (slot_url img)).
Proof.
  intros Hi Hlt. rewrite parse_images_eq.
  set (vs := List.filter valid_image (select "img" soup)) in *.
  assert (take max_images vs !! i = Some img) as Ht by (by rewrite lookup_take_lt).
  pose proof (lookup_lt_Some _ _ _ Ht) as Hbound.
  rewrite !fill_images_lookup_ne by (image_key_ne).
  replace (i + 1) with (0 + 1 + i) by lia. by apply store_images_lookup.
Qed.

Lemma parse_images_cleared soup (data : gmap string val) max_images i :
  length (take max_images (List.filter valid_image (select "img" soup))) < i
    ≤ max_images →
  parse_images soup data max_images !! image_category i = Some VNone ∧
  parse_images soup data max_images !! image_url i = Some VNone.
Proof. intros Hi. rewrite parse_images_eq. by apply fill_images_lookup. Qed.

Lemma image_alt_nonempty img : image_alt img ≠ [].
Proof.
  unfold image_alt. destruct (attr img "alt") as [[|c alt]|]; try done;
    by vm_compute.
Qed.

Lemma absolute_url_shape url :
  url ≠ [] → absolute_url url ≠ [] ∧ startswith (u "/") (absolute_url url) = false.
Proof.
  intros Hne. unfold absolute_url.
  destruct (startswith (u "/") url) eqn:Hs; [|done].
  split; [|by vm_compute]. destruct url; [done|]. by vm_compute.
Qed.

(** X17: a filled slot holds a category that is not empty and a URL that
    is not empty and does not start with a slash. *)
Theorem filled_slots_shape soup (data : gmap string val) max_images i img :
  List.filter valid_image (select "img" soup) !! i = Some img → i < max_images →
  ∃ category url,
    parse_images soup data max_images !! image_category (i + 1)
      = Some (VStr category) ∧
    parse_images soup data max_images !! image_url (i + 1) = Some (VStr url) ∧
    category ≠ [] ∧ url ≠ [] ∧ startswith (u "/") url = false.
Proof.
  intros Hi Hlt.
  destruct (parse_images_filled soup data max_images i img Hi Hlt) as [Hc Hu].
  exists (image_alt img), (slot_url img).
  split; [done|]. split; [done|]. split; [apply image_alt_nonempty|].
  apply valid_images_lookup in Hi. unfold valid_image in Hi. unfold slot_url.
  destruct (image_source img) as [[|c url]|]; try done.
  by apply absolute_url_shape.
Qed.

Lemma filled_slots_shape_witness :
  ∃ category url,
    parse_images page_three_images ∅ 16 !! image_category 1 = Some (VStr category) ∧
    parse_images page_three_images ∅ 16 !! image_url 1 = Some (VStr url) ∧
    category ≠ [] ∧ url ≠ [] ∧ startswith (u "/") url = false.
Proof.
  apply (filled_slots_shape page_three_images ∅ 16 0
           (img_tag [("src", "/img/a.jpg"); ("alt", "外観")])); [by vm_compute|lia].
Defined.

Lemma not_image_key k max_images i :
  k ∉ image_keys max_images → 1 ≤ i ≤ max_images →
  k ≠ image_category i ∧ k ≠ image_url i.
Proof.
  intros Hk Hi. unfold image_keys in Hk. apply not_elem_of_union in Hk as [Hc Hu].
  split; intros ->.
  - apply Hc, elem_of_list_to_set, list_elem_of_fmap. exists i.
    split; [done|]. apply elem_of_seq. lia.
  - apply Hu, elem_of_list_to_set, list_elem_of_fmap. exists i.
    split; [done|]. apply elem_of_seq. lia.
Qed.

Lemma parse_images_lookup_ne soup (data : gmap string val) max_images k :
  k ∉ image_keys max_images → parse_images soup data max_images !! k = data !! k.
Proof.
  intros Hk. rewrite parse_images_eq.
  set (vs := take max_images _).
  assert (length vs ≤ max_images) as Hlen by (unfold vs; rewrite length_take; lia).
  rewrite fill_images_lookup_ne
    by (intros i Hi; apply (not_image_key k max_images); [done|lia]).
  apply store_images_lookup_ne.
  intros i Hi. apply (not_image_key k max_images); [done|lia].
Qed.

(** X18: [parse_images] assigns the keys of the slots 1 to [max_images],
    all of them, and no other key. *)
Theorem images_assign_slot_keys soup (data : gmap string val) max_images :
  dom (parse_images soup data max_images) = dom data ∪ image_keys max_images ∧
  (∀ k, k ∈ image_keys max_images →
        is_Some (parse_images soup data max_images !! k)) ∧
  (∀ k, k ∉ image_keys max_images →
        parse_images soup data max_images !! k = data !! k).
Proof.
  split; [apply parse_images_dom|]. split.
  - intros k Hk. apply elem_of_dom. rewrite parse_images_dom.
    by apply elem_of_union_r.
  - intros k. apply parse_images_lookup_ne.
Qed.

Lemma image_key_cases k max_images :
  k ∈ image_keys max_images →
  ∃ i, 1 ≤ i ≤ max_images ∧ (k = image_category i ∨ k = image_url i).
Proof.
  unfold image_keys. intros [H|H]%elem_of_union;
    apply elem_of_list_to_set, list_elem_of_fmap in H as (i & -> & Hi%elem_of_seq);
    exists i; (split; [lia|auto]).
Qed.

Lemma parse_images_slot_value soup (data1 data2 : gmap string val) max_images k :
  k ∈ image_keys max_images →
  parse_images soup data1 max_images !! k = parse_images soup data2 max_images !! k.
Proof.
  intros (i & Hi & Hk)%image_key_cases.
  set (vs := List.filter valid_image (select "img" soup)).
  destruct (decide (i ≤ length (take max_images vs))) as [Hle|Hgt].
  - destruct (lookup_lt_is_Some_2 (take max_images vs) (i - 1)) as [img Himg]; [lia|].
    assert (vs !! (i - 1) = Some img) as Hvs.
    { rewrite lookup_take_lt in Himg; [done|lia]. }
    destruct (parse_images_filled soup data1 max_images (i - 1) img Hvs) as [H1 H2]; [lia|].
    destruct (parse_images_filled soup data2 max_images (i - 1) img Hvs) as [H3 H4]; [lia|].
    replace (i - 1 + 1) with i in * by lia.
    destruct Hk as [-> | ->]; congruence.
  - destruct (parse_images_cleared soup data1 max_images i) as [H1 H2]; [fold vs; lia|].
    destruct (parse_images_cleared soup data2 max_images i) as [H3 H4]; [fold vs; lia|].
    destruct Hk as [-> | ->]; congruence.
Qed.

(** X19: what [parse_images] leaves in the slots depends on the page only,
    not on what the record held before; collecting the images of the same
    page a second time changes nothing. *)
Theorem images_overwrite_slots soup (data1 data2 : gmap string val) max_images :
  (∀ k, k ∈ image_keys max_images →
        parse_images soup data1 max_images !! k
        = parse_images soup data2 max_images !! k) ∧
  parse_images soup (parse_images soup data1 max_images) max_images
  = parse_images soup data1 max_images.
Proof.
  split; [intros k; apply parse_images_slot_value|].
  apply map_eq. intros k.
  destruct (decide (k ∈ image_keys max_images)) as [Hin|Hout].
  - by apply parse_images_slot_value.
  - by rewrite !parse_images_lookup_ne.
Qed.

(** ** What the record never holds *)

Lemma contains_char c s : contains [c] s = true ↔ c ∈ s.
Proof.
  induction s as [|a r IH]; cbn [contains startswith].
  - split; [done|]. intros H. inversion H.
  - rewrite andb_true_r, orb_true_iff, N.eqb_eq, IH, elem_of_cons. tauto.
Qed.

Lemma lstrip_elem x s : x ∈ lstrip s → x ∈ s.
Proof.
  induction s as [|c r IH]; cbn [lstrip]; [done|].
  destruct (isspace c); [|done]. intros H. right. by apply IH.
Qed.

Lemma strip_elem x s : x ∈ strip s → x ∈ s.
Proof.
  unfold strip. intros H.
  apply list_elem_of_In, in_rev, list_elem_of_In, lstrip_elem in H.
  apply list_elem_of_In, in_rev, list_elem_of_In, lstrip_elem in H. exact H.
Qed.

Lemma strip_keeps_absent c s : contains [c] s = false → contains [c] (strip s) = false.
Proof.
  intros Hs. destruct (contains [c] (strip s)) eqn:Hc; [|done].
  apply contains_char, strip_elem, contains_char in Hc. congruence.
Qed.

(** X20: whatever the page, the text stored under ["monthly_rent"] holds
    no range separator. *)
Theorem stored_rent_without_range K url now soup :
  ∃ d, parse_property K url now soup = Ok d ∧
       ∀ s, d !! "monthly_rent" = Some (VStr s) → contains (u "〜") s = false.
Proof.
  exists (the_record K url now soup). split; [apply parse_property_ok|].
  intros s.
  destruct (record_field K url now soup 10 (u "賃料", "monthly_rent")
              "monthly_rent" eq_refl monthly_rent_only) as (b & Hb & ->).
  destruct (get_value_by_label soup (u "賃料")) as [v|] eqn:Hv.
  - destruct (decide (v = [])) as [->|Hne].
    + rewrite skipped_turn by (by right). rewrite Hb, empty_record_lookup.
      by case_decide.
    + rewrite (monthly_rent_turn soup b _ v Hv Hne).
      destruct (contains (u "〜") v) eqn:Hc; intros [= <-]; [|done].
      destruct (split_head_char 0x301C%N v Hc) as (rest & _ & Hno).
      by apply strip_keeps_absent.
  - rewrite skipped_turn by (by left). rewrite Hb, empty_record_lookup.
    by case_decide.
Qed.

Lemma stored_rent_without_range_witness :
  ∃ d, parse_property assigned_keys example_url example_now page_rent_range = Ok d ∧
       d !! "monthly_rent" = Some (VStr (u "8.5")) ∧
       contains (u "〜") (u "8.5") = false.
Proof.
  destruct (stored_rent_without_range assigned_keys example_url example_now
              page_rent_range) as (d & Hd & H).
  exists d. split; [exact Hd|].
  assert (d !! "monthly_rent" = Some (VStr (u "8.5"))) as Hr.
  { rewrite parse_property_ok in Hd. apply Ok_inj in Hd as <-. by vm_compute. }
  split; [exact Hr|]. by apply H.
Defined.

Lemma dash_zero_not_dash p : dash_zero p ≠ u "-".
Proof.
  unfold dash_zero, eqb. case_bool_decide as Hp; [|done]. by vm_compute.
Qed.

Lemma pair_key_value K url now soup label mk nk k :
  (label, mk, nk) ∈ pair_fields → k = mk ∨ k = nk →
  the_record K url now soup !! k ≠ Some (VStr (u "-")).
Proof.
  intros Hin Hk.
  destruct (proj1 (Forall_forall _ _) pair_fields_only _ Hin)
    as (n & okey & Hn & Hokey & Hw & Hmk & Hnk). simpl in Hn, Hw, Hmk, Hnk.
  assert (only_turn n k) as Honly by (by destruct Hk as [-> | ->]).
  destruct (record_field K url now soup n _ k Hn Honly) as (b & Hb & ->).
  assert (b !! k ≠ Some (VStr (u "-"))) as Hbefore.
  { rewrite Hb, empty_record_lookup. by case_decide. }
  destruct (get_value_by_label soup label) as [v|] eqn:Hv.
  - destruct (decide (v = [])) as [->|Hne].
    + by rewrite skipped_turn by (by right).
    + destruct (pair_turn soup b label okey v Hokey Hv Hne) as (mk1 & nk1 & Hw1 & ->).
      rewrite Hw in Hw1. injection Hw1 as <- <-.
      unfold split_pair.
      destruct (split (u "/") v) as [|p0 [|p1 [|p2 ps]]]; try done.
      destruct (decide (k = nk)) as [->|Hnk'].
      * rewrite lookup_insert_eq. intros [= H]. by apply dash_zero_not_dash in H.
      * destruct Hk as [-> | ->]; [|done].
        rewrite lookup_insert_ne, lookup_insert_eq by done.
        intros [= H]. by apply dash_zero_not_dash in H.
  - by rewrite skipped_turn by (by left).
Qed.

(** X21: none of the four keys of the two split fields ever holds the
    dash: a part that is a dash is stored as ["0"]. *)
Theorem pair_keys_never_dash K url now soup :
  ∃ d, parse_property K url now soup = Ok d ∧
       ∀ k, k ∈ pair_keys → d !! k ≠ Some (VStr (u "-")).
Proof.
  exists (the_record K url now soup). split; [apply parse_property_ok|].
  intros k Hk. unfold pair_keys in Hk.
  repeat (apply elem_of_cons in Hk as [->|Hk]).
  - eapply pair_key_value; [by left|by left].
  - eapply pair_key_value; [by left|by right].
  - eapply pair_key_value; [right; by left|by left].
  - eapply pair_key_value; [right; by left|by right].
  - inversion Hk.
Qed.

Lemma pair_keys_never_dash_witness :
  ∃ d, parse_property assigned_keys example_url example_now page_deposit = Ok d ∧
       d !! "months_key" ≠ Some (VStr (u "-")) ∧
       d !! "numeric_key" ≠ Some (VStr (u "-")).
Proof.
  destruct (pair_keys_never_dash assigned_keys example_url example_now page_deposit)
    as (d & Hd & H).
  exists d. split; [exact Hd|].
  split; apply H; apply (bool_decide_unpack _); by vm_compute.
Defined.

(** ** Examples for the statements above *)

Lemma numbers_only_under_fee_keys_witness :
  ∃ d, parse_property assigned_keys example_url example_now page_rent_text = Ok d ∧
       ∀ k x, d !! k = Some (VNum x) → k ∈ fee_keys.
Proof.
  apply (numbers_only_under_fee_keys assigned_keys example_url example_now
           page_rent_text).
Defined.

Lemma images_assign_slot_keys_witness :
  dom (parse_images page_three_images ∅ 16) = image_keys 16 ∧
  is_Some (parse_images page_three_images ∅ 16 !! image_url 16) ∧
  parse_images page_three_images ∅ 16 !! "image_url_17" = None.
Proof.
  destruct (images_assign_slot_keys page_three_images ∅ 16) as (Hdom & Hin & Hout).
  split; [by rewrite Hdom, dom_empty_L, (left_id_L ∅ (∪))|].
  split; [apply Hin|rewrite Hout; [done|]];
    apply (bool_decide_unpack _); by vm_compute.
Defined.

Lemma images_overwrite_slots_witness :
  parse_images page_three_images {[ image_url 1 := VStr (u "old") ]} 16
    !! image_url 1
  = parse_images page_three_images ∅ 16 !! image_url 1 ∧
  parse_images page_three_images (parse_images page_three_images ∅ 16) 16
  = parse_images page_three_images ∅ 16.
Proof.
  destruct (images_overwrite_slots page_three_images
              {[ image_url 1 := VStr (u "old") ]} ∅ 16) as [Hslot _].
  destruct (images_overwrite_slots page_three_images ∅ ∅ 16) as [_ Hagain].
  split; [apply Hslot|exact Hagain].
  apply (bool_decide_unpack _). by vm_compute.
Defined.
